(** * Tone.js worklet processors and the Freeverb wiring: a shallow embedding

    Sources embedded here:
    - [Tone/component/filter/FeedbackCombFilterProcessor.ts]
      ([FeedbackCombFilterProcessor] and the base class
      [ToneAudioWorkletProcessor]),
    - [Tone/effect/BitCrusherProcessor.ts] ([BitCrusherProcessor]),
    - [Tone/effect/Freeverb.ts] and the single-channel variant [Freeverb1],
    - [Tone/effect/Chorus1.ts] ([Chorus1]: its fields, accessors and
      constructor).

    JavaScript numbers are idealised as exact rationals ([Q]): no rounding, no
    overflow, no NaN.  Equality of samples is therefore [Qeq] ([==]).
    The exponent of [Math.pow] ranges over the integers, which covers the
    whole bit depths [1 .. 16] of the bit crusher; a fractional exponent
    leaves the rationals, and [BitCrusherReal] has the same [generate] over
    the real numbers for the fractional depths a parameter value may take. *)

From Stdlib Require Import ZArith QArith Qround Qabs Qpower Lia Lqa String.
From stdpp Require Import base option list strings.
From Stdlib Require Reals Lra Qreals.

Open Scope Q_scope.

(** ** JavaScript built-ins used by the processors *)

Module Math.

(** [Math.floor]: the largest integer not above [x], as a number. *)
Definition floor (x : Q) : Q := inject_Z (Qfloor x).

(** [Math.pow] at an integer exponent. *)
Definition pow (base : Q) (exponent : Z) : Q := base ^ exponent.

End Math.

(** [a || b] on an optional count: [undefined] and [0] are falsy. *)
Definition js_or (a : option nat) (b : nat) : nat :=
  match a with
  | Some (S n) => S n
  | _ => b
  end.

(** ** ToneAudioWorkletProcessor *)

(** The options object handed to a processor constructor; only
    [channelCount] is ever read. *)
Record ProcessorOptions := {
  channelCount : option nat;
}.

Record ToneAudioWorkletProcessor := {
  disposed : bool;
  blockSize : Z;
  sampleRate : Z;
}.

Module ToneAudioWorkletProcessor_.

(** [constructor(options)] *)
Definition new (options : ProcessorOptions) : ToneAudioWorkletProcessor :=
  {| disposed := false;
     blockSize := 256;
     sampleRate := 44100 |}.

(** [this.port.onmessage = (event) => ...], applied to [event.data]. *)
Definition onmessage (this : ToneAudioWorkletProcessor) (data : string)
  : ToneAudioWorkletProcessor :=
  if String.eqb data "dispose"
  then {| disposed := true;
          blockSize := blockSize this;
          sampleRate := sampleRate this |}
  else this.

End ToneAudioWorkletProcessor_.

(** ** DelayLine *)

Record DelayLine := {
  size : Z;
  buffer : list (list Q);
  writeHead : list Z;
}.

Module DelayLine_.

(** Modelled from the spec: the class [DelayLine] of
    [core/worklet/DelayLine] is imported by the comb filter but is not
    among the sources.  What follows is section 3 and section 4.1 of the
    specification: one circular buffer per channel of a fixed capacity, a
    write cursor per channel, all samples initially zero.  The constructor
    takes the two arguments of the call site,
    [new DelayLine(this.sampleRate, options.channelCount || 2)].  How the
    class derives the capacity of its buffers from them is not settled by
    the sources; here the first argument is the capacity, and no property
    below depends on the value of the capacity. *)
Definition new (size : Z) (channels : nat) : DelayLine :=
  {| size := size;
     buffer := replicate channels (replicate (Z.to_nat size) 0);
     writeHead := replicate channels 0%Z |}.

(** Modelled from the spec: the sample written [k] steps before the most
    recent write of a channel whose cursor (next slot to be written) is
    [cursor]; positions wrap modulo the capacity. *)
Definition sample_at (buf : list Q) (capacity cursor k : Z) : option Q :=
  buf !! Z.to_nat ((cursor - 1 - k) `mod` capacity).

(** Modelled from the spec: [read(channel, delaySamples)] of section 4.1,
    called [get] at the call site.  A delay below the capacity is resolved
    by linear interpolation between the two nearest integer delays; any
    other delay is a clamped read at [capacity - 1].  The buffers are not
    changed.  A channel the line does not have is a fault ([None]). *)
Definition get (this : DelayLine) (channel : nat) (delay : Q) : option Q :=
  buf ← buffer this !! channel;
  cursor ← writeHead this !! channel;
  if Qle_bool (inject_Z (size this)) delay
  then sample_at buf (size this) cursor (size this - 1)
  else
    let k := Qfloor delay in
    let frac := delay - inject_Z k in
    a ← sample_at buf (size this) cursor k;
    b ← sample_at buf (size this) cursor (k + 1);
    Some ((1 - frac) * a + frac * b).

(** Modelled from the spec: [write(channel, sample)] of section 4.1,
    called [push] at the call site: store at the cursor of the channel,
    then advance that cursor by one, wrapping at the capacity. *)
Definition push (this : DelayLine) (channel : nat) (value : Q)
  : option DelayLine :=
  buf ← buffer this !! channel;
  cursor ← writeHead this !! channel;
  Some {| size := size this;
          buffer := <[channel := <[Z.to_nat cursor := value]> buf]>
                      (buffer this);
          writeHead := <[channel := ((cursor + 1) `mod` size this)%Z]>
                         (writeHead this) |}.

End DelayLine_.

(** ** SingleIOProcessor: the interface of the concrete processors *)

(** Both processors extend [SingleIOProcessor] and supply
    [generate(input, channel, parameters)].  A processor type [P] with
    block-rate parameters [Par] carries the state of the base class; the
    two laws say that this state is a field of the processor. *)
Class SingleIOProcessor (P Par : Type) := {
  base : P → ToneAudioWorkletProcessor;
  with_base : P → ToneAudioWorkletProcessor → P;
  generate : P → Q → nat → Par → option (Q * P);
  base_with_base : ∀ p b, base (with_base p b) = b;
  with_base_base : ∀ p, with_base p (base p) = p;
}.

(** A message arriving on the port of a processor. *)
Definition receive `{SingleIOProcessor P Par} (this : P) (data : string) : P :=
  with_base this (ToneAudioWorkletProcessor_.onmessage (base this) data).

(** Successive [generate] calls on one channel, in sample order, with the
    parameters held constant. *)
Fixpoint feed `{SingleIOProcessor P Par}
    (this : P) (channel : nat) (parameters : Par) (input : list Q)
  : option (list Q * P) :=
  match input with
  | [] => Some ([], this)
  | x :: rest =>
      '(y, this1) ← generate this x channel parameters;
      '(ys, this2) ← feed this1 channel parameters rest;
      Some (y :: ys, this2)
  end.

(** An entry of [parameterDescriptors]. *)
Record ParameterDescriptor := {
  name : string;
  defaultValue : Q;
  minValue : Q;
  maxValue : Q;
  automationRate : string;
}.

(** ** FeedbackCombFilterProcessor *)

Record FeedbackCombFilterProcessor := {
  comb_super : ToneAudioWorkletProcessor;
  delayLine : DelayLine;
}.

Record FeedbackCombFilterParameters := {
  delayTime : Q;
  feedback : Q;
}.

Module FeedbackCombFilterProcessor_.

(** The body of the constructor after [super(options)] has returned. *)
Definition init (super : ToneAudioWorkletProcessor)
    (options : ProcessorOptions) : FeedbackCombFilterProcessor :=
  {| comb_super := super;
     delayLine := DelayLine_.new (sampleRate super)
                    (js_or (channelCount options) 2) |}.

(** [constructor(options)] *)
Definition new (options : ProcessorOptions) : FeedbackCombFilterProcessor :=
  init (ToneAudioWorkletProcessor_.new options) options.

(** [static get parameterDescriptors()] *)
Definition parameterDescriptors : list ParameterDescriptor :=
  [ {| name := "delayTime";
       defaultValue := 1 # 10;
       minValue := 0;
       maxValue := 1;
       automationRate := "k-rate" |};
    {| name := "feedback";
       defaultValue := 1 # 2;
       minValue := 0;
       maxValue := 9999 # 10000;
       automationRate := "k-rate" |} ].

(** [generate(input, channel, parameters)] *)
Definition generate (this : FeedbackCombFilterProcessor)
    (input : Q) (channel : nat) (parameters : FeedbackCombFilterParameters)
  : option (Q * FeedbackCombFilterProcessor) :=
  delayedSample ← DelayLine_.get (delayLine this) channel
                    (delayTime parameters
                     * inject_Z (sampleRate (comb_super this)));
  line ← DelayLine_.push (delayLine this) channel
           (input + delayedSample * feedback parameters);
  Some (delayedSample,
        {| comb_super := comb_super this; delayLine := line |}).

End FeedbackCombFilterProcessor_.

#[export] Instance FeedbackCombFilter_SingleIO
  : SingleIOProcessor FeedbackCombFilterProcessor FeedbackCombFilterParameters :=
  {| base := comb_super;
     with_base := λ p b, {| comb_super := b; delayLine := delayLine p |};
     generate := FeedbackCombFilterProcessor_.generate;
     base_with_base := λ _ _, eq_refl;
     with_base_base := λ p, match p with
                            | Build_FeedbackCombFilterProcessor _ _ => eq_refl
                            end |}.

(** ** BitCrusherProcessor *)

Record BitCrusherProcessor := {
  crusher_super : ToneAudioWorkletProcessor;
}.

Record BitCrusherParameters := {
  bits : Z;
}.

Module BitCrusherProcessor_.

(** The class declares no constructor: the inherited one runs. *)
Definition new (options : ProcessorOptions) : BitCrusherProcessor :=
  {| crusher_super := ToneAudioWorkletProcessor_.new options |}.

(** [static get parameterDescriptors()] *)
Definition parameterDescriptors : list ParameterDescriptor :=
  [ {| name := "bits";
       defaultValue := 12;
       minValue := 1;
       maxValue := 16;
       automationRate := "k-rate" |} ].

(** [generate(input, _channel, parameters)] *)
Definition generate (input : Q) (_channel : nat)
    (parameters : BitCrusherParameters) : Q :=
  let step := Math.pow (1 # 2) (bits parameters - 1) in
  let val := step * Math.floor (input / step + (1 # 2)) in
  val.

End BitCrusherProcessor_.

#[export] Instance BitCrusher_SingleIO
  : SingleIOProcessor BitCrusherProcessor BitCrusherParameters :=
  {| base := crusher_super;
     with_base := λ _ b, {| crusher_super := b |};
     generate := λ this input channel parameters,
       Some (BitCrusherProcessor_.generate input channel parameters, this);
     base_with_base := λ _ _, eq_refl;
     with_base_base := λ p, match p with
                            | Build_BitCrusherProcessor _ => eq_refl
                            end |}.

(** ** The block loop of SingleIOProcessor *)

(** Modelled from the spec: [SingleIOProcessor.process] is not among the
    sources.  Section 4.2 of the specification: for every channel and every
    sample index of the block, in increasing order, [generate] is invoked
    with the block-rate parameters and its result written to the output
    block at the same channel and index. *)
Fixpoint process_channels `{SingleIOProcessor P Par}
    (this : P) (channel : nat) (parameters : Par) (inputs : list (list Q))
  : option (list (list Q) * P) :=
  match inputs with
  | [] => Some ([], this)
  | input :: rest =>
      '(output, this1) ← feed this channel parameters input;
      '(outputs, this2) ← process_channels this1 (S channel) parameters rest;
      Some (output :: outputs, this2)
  end.

(** An all-zero block of the shape of [inputs]. *)
Definition silence (inputs : list (list Q)) : list (list Q) :=
  (λ input, replicate (length input) 0) <$> inputs.

(** Modelled from the spec: item 4 of section 4.2, in its first variant: a
    disposed node answers every block request with silence and touches none
    of its state. *)
Definition process `{SingleIOProcessor P Par}
    (this : P) (inputs : list (list Q)) (parameters : Par)
  : option (list (list Q) * P) :=
  if disposed (base this)
  then Some (silence inputs, this)
  else process_channels this 0 parameters inputs.

(** What the host does to a node: it requests a block or it posts a message
    on the port. *)
Inductive HostEvent (Par : Type) :=
| BlockRequest (inputs : list (list Q)) (parameters : Par)
| PortMessage (data : string).
Arguments BlockRequest {Par} inputs parameters.
Arguments PortMessage {Par} data.

Definition handle `{SingleIOProcessor P Par} (this : P) (ev : HostEvent Par)
  : option P :=
  match ev with
  | BlockRequest inputs parameters => snd <$> process this inputs parameters
  | PortMessage data => Some (receive this data)
  end.

(** The state of a node after a sequence of host events, [None] if one of
    them faulted. *)
Fixpoint after `{SingleIOProcessor P Par} (this : P) (evs : list (HostEvent Par))
  : option P :=
  match evs with
  | [] => Some this
  | ev :: rest => this1 ← handle this ev; after this1 rest
  end.

(** The states a processor can be in: built by its constructor [new], then
    changed by [generate], by block requests and by port messages. *)
Inductive reachable `{SingleIOProcessor P Par} (new : ProcessorOptions → P)
  : P → Prop :=
| reach_new options :
    reachable new (new options)
| reach_generate this input channel parameters y this1 :
    reachable new this →
    generate this input channel parameters = Some (y, this1) →
    reachable new this1
| reach_process this inputs parameters outputs this1 :
    reachable new this →
    process this inputs parameters = Some (outputs, this1) →
    reachable new this1
| reach_message this data :
    reachable new this →
    reachable new (receive this data).

(** One [generate] call of a test run: the input sample, the channel and the
    delay time; the feedback is fixed for the run. *)
Record CombCall := {
  call_input : Q;
  call_channel : nat;
  call_delayTime : Q;
}.

Fixpoint comb_run (this : FeedbackCombFilterProcessor) (fb : Q)
    (calls : list CombCall) : option (list Q * FeedbackCombFilterProcessor) :=
  match calls with
  | [] => Some ([], this)
  | c :: rest =>
      '(y, this1) ← FeedbackCombFilterProcessor_.generate this
                      (call_input c) (call_channel c)
                      {| delayTime := call_delayTime c; feedback := fb |};
      '(ys, this2) ← comb_run this1 fb rest;
      Some (y :: ys, this2)
  end.






(** ** Freeverb and Freeverb1: the wiring of the reverb network *)

(** The things a wiring call can name. *)
Inductive Endpoint :=
| SignalOf (name : string)      (* [this.roomSize], [this.wetGain] *)
| CombFilter (id : nat)         (* a [LowpassCombFilter] *)
| CombInputGain (id : nat)      (* its [input.input.gain] *)
| CombResonance (id : nat)      (* its [resonance] *)
| Biquad (id : nat)             (* an allpass [BiquadFilterNode] *)
| EffectSend
| EffectReturn.

#[export] Instance Endpoint_eq_dec : EqDecision Endpoint.
Proof. solve_decision. Defined.

(** The wiring calls a constructor performs, in order. *)
Inductive WiringCall :=
| connect (source destination : Endpoint)
| connectEffectLeft (nodes : list Endpoint)
| connectEffectRight (nodes : list Endpoint)
| chain (source : Endpoint) (nodes : list Endpoint)
| internalChannels_push (nodes : list Endpoint).

#[export] Instance WiringCall_eq_dec : EqDecision WiringCall.
Proof. solve_decision. Defined.

Record Signal := {
  signal_name : string;
  value : Q;
  units : string;
}.

Record BiquadFilterNode := {
  biquad_id : nat;
  type : string;
  frequency : Q;
}.

(** Modelled from the spec: the class [LowpassCombFilter] is imported by
    the effects but is not among the sources.  Section 4.4: it exposes a
    [dampening] (cutoff) and a [resonance] control; the effects build it
    from a dampening and a delay time, assign to its [dampening] property
    and connect to its [resonance].  [comb_id] tells the instances apart. *)
Record LowpassCombFilter := {
  comb_id : nat;
  comb_delayTime : Q;
  dampening : Q;
}.

Definition resonance (lfpf : LowpassCombFilter) : Endpoint :=
  CombResonance (comb_id lfpf).

Record FreeverbOptions := {
  opt_roomSize : Q;
  opt_dampening : Q;
  opt_wetGain : Q;
}.

(** An array of comb filter delay values from Freeverb implementation *)
Definition combFilterTunings : list Q :=
  [1557 # 44100; 1617 # 44100; 1491 # 44100; 1422 # 44100;
   1277 # 44100; 1356 # 44100; 1188 # 44100; 1116 # 44100].

(** An array of allpass filter frequency values from Freeverb implementation *)
Definition allpassFilterFrequencies : list Q := [225; 556; 441; 341].

(** [allpassFilterFrequencies.map(freq => ...)]; the nodes are numbered from
    [first] in creation order. *)
Definition make_allpasses (first : nat) : list BiquadFilterNode :=
  imap (λ i freq, {| biquad_id := first + i;
                     type := "allpass";
                     frequency := freq |})
       allpassFilterFrequencies.

(** The result of [combFilterTunings.map(callback)] for a callback that
    returns the new filter and performs some wiring calls. *)
Definition map_combs (callback : nat → Q → LowpassCombFilter * list WiringCall)
  : list LowpassCombFilter * list WiringCall :=
  let results := imap callback combFilterTunings in
  (fst <$> results, mjoin (snd <$> results)).

Module Freeverb.

Record t := {
  roomSize : Signal;
  wetGain : Signal;
  _combFilters : list LowpassCombFilter;
  _allpassFiltersL : list BiquadFilterNode;
  _allpassFiltersR : list BiquadFilterNode;
  wiring : list WiringCall;
}.

Definition getDefaults : FreeverbOptions :=
  {| opt_roomSize := 7 # 10; opt_dampening := 3000; opt_wetGain := 1 |}.

(** The callback of [combFilterTunings.map] in the constructor. *)
Definition make_comb (options : FreeverbOptions)
    (allpassL allpassR : list BiquadFilterNode)
    (index : nat) (delayTime : Q) : LowpassCombFilter * list WiringCall :=
  let lfpf := {| comb_id := index;
                 comb_delayTime := delayTime;
                 dampening := opt_dampening options |} in
  (lfpf,
   [ if (index <? length combFilterTunings / 2)%nat
     then connectEffectLeft
            (CombFilter index :: (Biquad ∘ biquad_id <$> allpassL))
     else connectEffectRight
            (CombFilter index :: (Biquad ∘ biquad_id <$> allpassR));
     connect (SignalOf "wetGain") (CombInputGain index);
     connect (SignalOf "roomSize") (resonance lfpf) ]).

(** [constructor()], after the options have been resolved. *)
Definition new (options : FreeverbOptions) : t :=
  let allpassL := make_allpasses 0 in
  let allpassR := make_allpasses (length allpassL) in
  let '(combs, calls) := map_combs (make_comb options allpassL allpassR) in
  {| roomSize := {| signal_name := "roomSize";
                    value := opt_roomSize options;
                    units := "normalRange" |};
     wetGain := {| signal_name := "wetGain";
                   value := opt_wetGain options;
                   units := "gain" |};
     _combFilters := combs;
     _allpassFiltersL := allpassL;
     _allpassFiltersR := allpassR;
     wiring := calls |}.

(** [get dampening()] *)
Definition get_dampening (this : t) : option Q :=
  dampening <$> _combFilters this !! 0%nat.

(** [set dampening(d)] *)
Definition set_dampening (this : t) (d : Q) : t :=
  {| roomSize := roomSize this;
     wetGain := wetGain this;
     _combFilters :=
       (λ c, {| comb_id := comb_id c;
                comb_delayTime := comb_delayTime c;
                dampening := d |}) <$> _combFilters this;
     _allpassFiltersL := _allpassFiltersL this;
     _allpassFiltersR := _allpassFiltersR this;
     wiring := wiring this |}.

End Freeverb.

Module Freeverb1.

Record t := {
  roomSize : Signal;
  wetGain : Signal;
  _combFilters : list LowpassCombFilter;
  _allpassFilters : list BiquadFilterNode;
  wiring : list WiringCall;
}.

Definition getDefaults : FreeverbOptions :=
  {| opt_roomSize := 7 # 10; opt_dampening := 3000; opt_wetGain := 1 |}.

(** The callback of [combFilterTunings.map] in the constructor. *)
Definition make_comb (options : FreeverbOptions)
    (allpass : list BiquadFilterNode)
    (index : nat) (delayTime : Q) : LowpassCombFilter * list WiringCall :=
  let lfpf := {| comb_id := index;
                 comb_delayTime := delayTime;
                 dampening := opt_dampening options |} in
  (lfpf,
   [ internalChannels_push
       (CombFilter index :: (Biquad ∘ biquad_id <$> allpass));
     chain EffectSend
       (CombFilter index :: (Biquad ∘ biquad_id <$> allpass)
          ++ [EffectReturn]);
     connect (SignalOf "wetGain") (CombInputGain index);
     connect (SignalOf "roomSize") (resonance lfpf) ]).

(** [constructor()], after the options have been resolved. *)
Definition new (options : FreeverbOptions) : t :=
  let allpass := make_allpasses 0 in
  let '(combs, calls) := map_combs (make_comb options allpass) in
  {| roomSize := {| signal_name := "roomSize";
                    value := opt_roomSize options;
                    units := "normalRange" |};
     wetGain := {| signal_name := "wetGain";
                   value := opt_wetGain options;
                   units := "gain" |};
     _combFilters := combs;
     _allpassFilters := allpass;
     wiring := calls |}.

(** [get dampening()] *)
Definition get_dampening (this : t) : option Q :=
  dampening <$> _combFilters this !! 0%nat.

(** [set dampening(d)] *)
Definition set_dampening (this : t) (d : Q) : t :=
  {| roomSize := roomSize this;
     wetGain := wetGain this;
     _combFilters :=
       (λ c, {| comb_id := comb_id c;
                comb_delayTime := comb_delayTime c;
                dampening := d |}) <$> _combFilters this;
     _allpassFilters := _allpassFilters this;
     wiring := wiring this |}.

End Freeverb1.

(** ** Predicates and scenarios used by the properties *)

(** A delay line in good shape: a positive capacity, every buffer of that
    length, a cursor per buffer, every cursor inside its buffer. *)
Record DelayLine_wf (line : DelayLine) : Prop := {
  wf_size : (0 < size line)%Z;
  wf_channels : length (writeHead line) = length (buffer line);
  wf_buffers : Forall (λ buf, length buf = Z.to_nat (size line)) (buffer line);
  wf_cursors : Forall (λ c, (0 <= c < size line)%Z) (writeHead line);
}.

(** Every stored sample is at most [M] in absolute value. *)
Definition DelayLine_within (M : Q) (line : DelayLine) : Prop :=
  Forall (Forall (λ v, Qabs v <= M)) (buffer line).




(** ** Chorus1 *)

(** [Math.max] of two numbers. *)
Definition Math_max (a b : Q) : Q := if Qle_bool a b then b else a.

(** [Math.abs] *)
Definition Math_abs (a : Q) : Q := Qabs a.

(** Modelled from the spec: the class [LFO] of [source/oscillator/LFO] is
    imported by the chorus but is not among the sources; the specification
    only names it as an external collaborator.  The effect treats it as an
    object with the properties [frequency], [min], [max], [phase] and [type],
    each of which reads back what was last assigned to it.  [type] is not
    among the options the effect passes; the oscillator's own default stands
    until the effect assigns it, which its constructor does before it
    returns. *)
Record LFO := {
  lfo_frequency : Q;
  lfo_min : Q;
  lfo_max : Q;
  lfo_phase : Q;
  lfo_type : string;
}.

Record Chorus1Options := {
  chorus_frequency : Q;
  chorus_delayTime : Q;
  chorus_depth : Q;
  chorus_type : string;
  chorus_spread : Q;
  chorus_channel : Q;
}.

Module Chorus1.

Record t := {
  _depth : Q;
  _delayTime : Q;
  _lfo : LFO;
  _channel : Q;
}.

(** The members of [getDefaults()] that the class itself adds or reads. *)
Definition getDefaults : Chorus1Options :=
  {| chorus_frequency := 15 # 10;
     chorus_delayTime := 35 # 10;
     chorus_depth := 7 # 10;
     chorus_type := "sine";
     chorus_spread := 180;
     chorus_channel := 0 |}.

(** [get depth()] *)
Definition get_depth (this : t) : Q := _depth this.

(** [set depth(depth)] *)
Definition set_depth (this : t) (depth : Q) : t :=
  let deviation := _delayTime this * depth in
  {| _depth := depth;
     _delayTime := _delayTime this;
     _lfo := {| lfo_frequency := lfo_frequency (_lfo this);
                lfo_min := Math_max (_delayTime this - deviation) 0;
                lfo_max := _delayTime this + deviation;
                lfo_phase := lfo_phase (_lfo this);
                lfo_type := lfo_type (_lfo this) |};
     _channel := _channel this |}.

(** [get delayTime()] *)
Definition get_delayTime (this : t) : Q := _delayTime this * 1000.

(** [set delayTime(delayTime)] *)
Definition set_delayTime (this : t) (delayTime : Q) : t :=
  let this1 := {| _depth := _depth this;
                  _delayTime := delayTime / 1000;
                  _lfo := _lfo this;
                  _channel := _channel this |} in
  set_depth this1 (_depth this1).

(** [get type()] *)
Definition get_type (this : t) : string := lfo_type (_lfo this).

(** [set type(type)] *)
Definition set_type (this : t) (type : string) : t :=
  {| _depth := _depth this;
     _delayTime := _delayTime this;
     _lfo := {| lfo_frequency := lfo_frequency (_lfo this);
                lfo_min := lfo_min (_lfo this);
                lfo_max := lfo_max (_lfo this);
                lfo_phase := lfo_phase (_lfo this);
                lfo_type := type |};
     _channel := _channel this |}.

(** [get spread()] *)
Definition get_spread (this : t) : Q :=
  Math_abs (lfo_phase (_lfo this) - 90) * 2.

(** [set spread(spread)] *)
Definition set_spread (this : t) (spread : Q) : t :=
  {| _depth := _depth this;
     _delayTime := _delayTime this;
     _lfo := {| lfo_frequency := lfo_frequency (_lfo this);
                lfo_min := lfo_min (_lfo this);
                lfo_max := lfo_max (_lfo this);
                lfo_phase := if Qeq_bool (_channel this) 0
                             then 90 - spread / 2
                             else spread / 2 + 90;
                lfo_type := lfo_type (_lfo this) |};
     _channel := _channel this |}.

(** [constructor()], after the options have been resolved: the fields, the
    oscillator, then the three initial assignments through the setters.  The
    wiring calls ([connectEffect], [_lfo.connect]) touch none of these
    fields. *)
Definition new (options : Chorus1Options) : t :=
  let this0 :=
    {| _channel := chorus_channel options;
       _depth := chorus_depth options;
       _delayTime := chorus_delayTime options / 1000;
       _lfo := {| lfo_frequency := chorus_frequency options;
                  lfo_min := 0;
                  lfo_max := 1;
                  lfo_phase := 180 * chorus_channel options;
                  lfo_type := "sine" |} |} in
  let this1 := set_depth this0 (_depth this0) in
  let this2 := set_type this1 (chorus_type options) in
  set_spread this2 (chorus_spread options).

(** What a user can assign to a chorus. *)
Inductive Assignment :=
| AssignDepth (depth : Q)
| AssignDelayTime (delayTime : Q)
| AssignType (type : string)
| AssignSpread (spread : Q).

Definition assign (this : t) (a : Assignment) : t :=
  match a with
  | AssignDepth depth => set_depth this depth
  | AssignDelayTime delayTime => set_delayTime this delayTime
  | AssignType type => set_type this type
  | AssignSpread spread => set_spread this spread
  end.

End Chorus1.

(** ** Further vocabulary for the properties *)

(** The port messages [msgs], received in order. *)
Definition receive_all `{SingleIOProcessor P Par} (this : P)
    (msgs : list string) : P :=
  foldl receive this msgs.

(** The quantization step of the bit crusher at a bit depth. *)
Definition crusher_step (b : Z) : Q := Math.pow (1 # 2) (b - 1).

(** The range of the oscillator agrees with the delay time and the depth. *)
Definition chorus_in_keeping (this : Chorus1.t) : Prop :=
  lfo_min (Chorus1._lfo this)
  = Math_max (Chorus1._delayTime this
              - Chorus1._delayTime this * Chorus1._depth this) 0
  ∧ lfo_max (Chorus1._lfo this)
    = Chorus1._delayTime this
      + Chorus1._delayTime this * Chorus1._depth this.

(** ** BitCrusherProcessor at fractional bit depths *)

Module BitCrusherReal.

Import Reals.
Local Open Scope R_scope.

(** [generate(input, _channel, parameters)] of the bit crusher once more,
    over the real numbers, where [Math.pow] is defined at every exponent:
    [bits] is any real number, as the value of the k-rate parameter may
    be. *)
Definition generate (input : R) (_channel : nat) (bits : R) : R :=
  let step := Rpower (1 / 2) (bits - 1) in
  let val := step * IZR (Int_part (input / step + 1 / 2)) in
  val.

End BitCrusherReal.

(** * Properties *)

(** ** Bit crusher *)

Section BitCrusher.

Implicit Types (x t s : Q) (b j : Z).

Lemma step_pos b : 0 < Math.pow (1 # 2) b.
Proof. unfold Math.pow. apply Qpower_0_lt. reflexivity. Qed.

(** The step written with base two, as the specification has it. *)
Lemma step_base_two b : Math.pow (1 # 2) b == 2 ^ (- b).
Proof.
  unfold Math.pow. rewrite Qpower_opp.
  change (1 # 2) with (/ 2). apply Qinv_power.
Qed.

(** [floor (t + 1/2)] lies within one half of [t] ... *)
Lemma round_within_half t :
  - (1 # 2) < inject_Z (Qfloor (t + (1 # 2))) - t <= 1 # 2.
Proof.
  pose proof (Qfloor_le (t + (1 # 2))) as Hle.
  pose proof (Qlt_floor (t + (1 # 2))) as Hlt.
  rewrite inject_Z_plus in Hlt. change (inject_Z 1) with 1 in Hlt.
  split; lra.
Qed.

(** ... and no integer is nearer to [t]. *)
Lemma round_nearest t j :
  Qabs (inject_Z (Qfloor (t + (1 # 2))) - t) <= Qabs (inject_Z j - t).
Proof.
  destruct (round_within_half t) as [Hlo Hhi].
  set (n := Qfloor (t + (1 # 2))) in *.
  apply Qabs_Qle_condition.
  destruct (Z.lt_trichotomy j n) as [Hj | [-> | Hj]].
  - assert (inject_Z j + 1 <= inject_Z n) as H.
    { change 1 with (inject_Z 1). rewrite <- inject_Z_plus, <- Zle_Qle. lia. }
    pose proof (Qle_Qabs (- (inject_Z j - t))) as Ha.
    rewrite Qabs_opp in Ha. split; lra.
  - pose proof (Qle_Qabs (inject_Z n - t)) as Ha.
    pose proof (Qle_Qabs (- (inject_Z n - t))) as Hb.
    rewrite Qabs_opp in Hb. split; lra.
  - assert (inject_Z n + 1 <= inject_Z j) as H.
    { change 1 with (inject_Z 1). rewrite <- inject_Z_plus, <- Zle_Qle. lia. }
    pose proof (Qle_Qabs (inject_Z j - t)) as Ha. split; lra.
Qed.

(** On a grid of positive step [s], rounding [x / s] picks a grid point
    that no other grid point beats. *)
Lemma grid_nearest s x j :
  0 < s →
  Qabs (s * Math.floor (x / s + (1 # 2)) - x) <= Qabs (s * inject_Z j - x).
Proof.
  intros Hs. unfold Math.floor.
  assert (∀ k : Z, s * inject_Z k - x == s * (inject_Z k - x / s)) as Heq.
  { intros k. field. lra. }
  rewrite !Heq, !Qabs_Qmult.
  apply Qmult_le_l; [apply Qlt_le_trans with s; [done | apply Qle_Qabs] |].
  apply round_nearest.
Qed.

Lemma grid_within_half s x :
  0 < s → Qabs (s * Math.floor (x / s + (1 # 2)) - x) <= s / 2.
Proof.
  intros Hs. unfold Math.floor.
  destruct (round_within_half (x / s)) as [Hlo Hhi].
  set (n := inject_Z (Qfloor (x / s + (1 # 2)))) in *.
  assert (s * n - x == s * (n - x / s)) as -> by (field; lra).
  apply Qabs_Qle_condition. split.
  - assert (s * (- (1 # 2)) <= s * (n - x / s)) as H.
    { apply Qmult_le_l; [done | lra]. }
    assert (- (s / 2) == s * (- (1 # 2))) as -> by field. done.
  - assert (s * (n - x / s) <= s * (1 # 2)) as H.
    { apply Qmult_le_l; [done | lra]. }
    assert (s / 2 == s * (1 # 2)) as -> by field. done.
Qed.

(** A grid point is its own rounding. *)
Lemma grid_fixed s j :
  0 < s → Math.floor (s * inject_Z j / s + (1 # 2)) = inject_Z j.
Proof.
  intros Hs. unfold Math.floor. f_equal.
  assert (s * inject_Z j / s + (1 # 2) == inject_Z j + (1 # 2)) as ->
    by (field; lra).
  pose proof (Qfloor_le (inject_Z j + (1 # 2))) as Hle.
  pose proof (Qlt_floor (inject_Z j + (1 # 2))) as Hlt.
  set (n := Qfloor (inject_Z j + (1 # 2))) in *.
  assert (inject_Z n < inject_Z (j + 1)) as H1.
  { rewrite inject_Z_plus. change (inject_Z 1) with 1. lra. }
  assert (inject_Z j < inject_Z (n + 1)) as H2 by lra.
  rewrite <- Zlt_Qlt in H1, H2. lia.
Qed.

(** The coarser grid is contained in the finer one. *)
Lemma coarse_step_multiple b1 b2 :
  (b1 <= b2)%Z →
  Math.pow (1 # 2) b1 == Math.pow (1 # 2) b2 * inject_Z (2 ^ (b2 - b1)).
Proof.
  intros Hb. rewrite Zpower_Qpower by lia.
  rewrite (step_base_two b1), (step_base_two b2).
  rewrite <- Qpower_plus by done.
  by replace (- b2 + (b2 - b1))%Z with (- b1)%Z by lia.
Qed.

End BitCrusher.

#[local] Instance Math_floor_proper : Proper (Qeq ==> Qeq) Math.floor.
Proof. intros x y Hxy. unfold Math.floor. by rewrite (Qfloor_comp _ _ Hxy). Qed.

(** C4. For every input sample and every bit depth, [generate] of the bit
    crusher returns [step * floor (input / step + 0.5)] with
    [step = 2 ^ -(bits - 1)]; the processor is handed back unchanged (no
    state is carried from one sample to the next); the result is within half
    a step of the input and an input half-way between two levels goes to the
    upper one; with [bits = 1] the input 0.3 gives 0 and the input 0.6
    gives 1. *)
Theorem BitCrusher_generate_quantizes
    (this : BitCrusherProcessor) (input : Q) (channel : nat)
    (parameters : BitCrusherParameters) :
  let step := 2 ^ (- (bits parameters - 1)) in
  let val := BitCrusherProcessor_.generate input channel parameters in
  generate this input channel parameters = Some (val, this)
  ∧ val == step * Math.floor (input / step + (1 # 2))
  ∧ Qabs (val - input) <= step / 2
  ∧ (∀ k : Z,
       BitCrusherProcessor_.generate
         (step * (inject_Z k + (1 # 2))) channel parameters
       == step * inject_Z (k + 1))
  ∧ BitCrusherProcessor_.generate (3 # 10) channel {| bits := 1 |} == 0
  ∧ BitCrusherProcessor_.generate (6 # 10) channel {| bits := 1 |} == 1.
Proof.
  intros step val.
  pose proof (step_pos (bits parameters - 1)) as Hpos.
  pose proof (step_base_two (bits parameters - 1)) as Hstep.
  fold step in Hstep.
  split_and!; [done | | | | done | done].
  - subst val. unfold BitCrusherProcessor_.generate. cbv zeta.
    by rewrite Hstep.
  - subst val. unfold BitCrusherProcessor_.generate. cbv zeta.
    rewrite <- Hstep. by apply grid_within_half.
  - intros k. unfold BitCrusherProcessor_.generate. cbv zeta.
    rewrite <- Hstep.
    set (s := Math.pow (1 # 2) (bits parameters - 1)) in *.
    assert (s * (inject_Z k + (1 # 2)) / s + (1 # 2) == inject_Z (k + 1)) as ->.
    { rewrite inject_Z_plus. change (inject_Z 1) with 1. field. lra. }
    unfold Math.floor. by rewrite Qfloor_Z.
Qed.

(** C6. For every input sample and every bit depth, running the output of
    the bit crusher's [generate] through [generate] again, at the same bit
    depth, gives the same sample: quantization is a projection. *)
Theorem BitCrusher_generate_idempotent
    (input : Q) (channel : nat) (parameters : BitCrusherParameters) :
  BitCrusherProcessor_.generate
    (BitCrusherProcessor_.generate input channel parameters)
    channel parameters
  = BitCrusherProcessor_.generate input channel parameters.
Proof.
  unfold BitCrusherProcessor_.generate. cbv zeta.
  set (s := Math.pow (1 # 2) (bits parameters - 1)).
  unfold Math.floor at 2.
  rewrite grid_fixed by apply step_pos. done.
Qed.

(** C7, amended.  For a fixed input sample and whole bit depths [b1 < b2],
    the output at [b2] is at least as close to the input as the output at
    [b1]: among whole bit depths the quantization error does not grow with
    the depth.  This holds for all integers, in particular within the
    declared range 1 to 16. *)
Theorem BitCrusher_error_monotone
    (input : Q) (channel : nat) (b1 b2 : Z) :
  (b1 < b2)%Z →
  Qabs (BitCrusherProcessor_.generate input channel {| bits := b2 |} - input)
  <= Qabs (BitCrusherProcessor_.generate input channel {| bits := b1 |} - input).
Proof.
  intros Hb. unfold BitCrusherProcessor_.generate. cbv zeta. simpl bits.
  pose proof (coarse_step_multiple (b1 - 1) (b2 - 1) ltac:(lia)) as Hmul.
  set (s1 := Math.pow (1 # 2) (b1 - 1)) in *.
  set (s2 := Math.pow (1 # 2) (b2 - 1)) in *.
  unfold Math.floor at 2.
  set (n1 := Qfloor (input / s1 + (1 # 2))).
  assert (s1 * inject_Z n1 == s2 * inject_Z (2 ^ (b2 - 1 - (b1 - 1)) * n1)) as ->.
  { rewrite Hmul, inject_Z_mult. ring. }
  apply grid_nearest, step_pos.
Qed.

Lemma BitCrusher_error_monotone_witness :
  Qabs (BitCrusherProcessor_.generate (3 # 10) 0 {| bits := 4 |} - (3 # 10))
  <= Qabs (BitCrusherProcessor_.generate (3 # 10) 0 {| bits := 1 |} - (3 # 10)).
Proof. apply (BitCrusher_error_monotone (3 # 10) 0 1 4). lia. Defined.

Module BitCrusherRealFacts.

Import Reals Qreals.
Local Open Scope R_scope.

Lemma Int_part_unique (r : R) (n : Z) :
  IZR n <= r → r < IZR n + 1 → Int_part r = n.
Proof. intros Hlo Hhi. symmetry. apply Int_part_spec. split; Lra.lra. Qed.

Lemma Q2R_inject_Z (n : Z) : Q2R (inject_Z n) = IZR n.
Proof. unfold Q2R, inject_Z. simpl. field. Qed.

Lemma Q2R_half : Q2R (1 # 2) = 1 / 2.
Proof. unfold Q2R. simpl. field. Qed.

Lemma Q2R_step (b : Z) :
  Q2R (Math.pow (1 # 2) (b - 1)) = Rpower (1 / 2) (IZR b - 1).
Proof.
  unfold Math.pow. rewrite RMicromega.Q2RpowerRZ by (left; discriminate).
  rewrite Q2R_half, powerRZ_Rpower by Lra.lra. by rewrite minus_IZR.
Qed.

Lemma Q2R_floor (q : Q) : Int_part (Q2R q) = Qfloor q.
Proof.
  apply Int_part_unique.
  - rewrite <- Q2R_inject_Z. apply Qle_Rle, Qfloor_le.
  - replace (IZR (Qfloor q) + 1) with (Q2R (inject_Z (Qfloor q + 1))).
    + apply Qlt_Rlt, Qlt_floor.
    + rewrite Q2R_inject_Z, plus_IZR. reflexivity.
Qed.

(** At a whole bit depth and a rational input the real-valued [generate] is
    the rational one. *)
Lemma generate_at_whole_depth (x : Q) (channel : nat) (b : Z) :
  BitCrusherReal.generate (Q2R x) channel (IZR b)
  = Q2R (BitCrusherProcessor_.generate x channel {| bits := b |}).
Proof.
  unfold BitCrusherReal.generate, BitCrusherProcessor_.generate. cbv zeta.
  simpl bits. pose proof (step_pos (b - 1)) as Hpos.
  assert (¬ (Math.pow (1 # 2) (b - 1) == 0)%Q) as Hne.
  { intros H. rewrite H in Hpos. by apply Qlt_irrefl in Hpos. }
  unfold Math.floor. rewrite Q2R_mult, Q2R_inject_Z, <- Q2R_floor.
  rewrite Q2R_plus, Q2R_div, Q2R_half, Q2R_step by done.
  reflexivity.
Qed.

Lemma sqrt_half_bounds : 1 / 2 < sqrt (1 / 2) < 1.
Proof.
  pose proof (sqrt_pos (1 / 2)) as Hpos.
  pose proof (sqrt_sqrt (1 / 2) ltac:(Lra.lra)) as Hsq.
  set (s := sqrt (1 / 2)) in *. split; Lra.nra.
Qed.

Lemma generate_at_two :
  BitCrusherReal.generate (3 / 4) 0 2 = 1.
Proof.
  unfold BitCrusherReal.generate. cbv zeta.
  replace (2 - 1) with 1 by Lra.lra. rewrite Rpower_1 by Lra.lra.
  replace (3 / 4 / (1 / 2) + 1 / 2) with (IZR 2) by (simpl; field).
  rewrite (Int_part_unique (IZR 2) 2) by Lra.lra. simpl. Lra.lra.
Qed.

Lemma generate_at_three_halves :
  BitCrusherReal.generate (3 / 4) 0 (3 / 2) = sqrt (1 / 2).
Proof.
  unfold BitCrusherReal.generate. cbv zeta.
  replace (3 / 2 - 1) with (/ 2) by Lra.lra.
  rewrite Rpower_sqrt by Lra.lra.
  destruct sqrt_half_bounds as [Hlo Hhi]. set (s := sqrt (1 / 2)) in *.
  assert (s * / s = 1) as Hinv by (apply Rinv_r; Lra.lra).
  assert (0 < / s) as Hpos by (apply Rinv_0_lt_compat; Lra.lra).
  rewrite (Int_part_unique (3 / 4 / s + 1 / 2) 1).
  - simpl. Lra.lra.
  - unfold Rdiv at 1. simpl. Lra.nra.
  - unfold Rdiv at 1. simpl. Lra.nra.
Qed.

(** C7, refuted.  The bit depth is a parameter value, any number from 1 to
    16.  With the input 0.75, going from the depth 1.5 to the depth 2 makes
    the error larger: at 1.5 the step is the square root of 0.5, the output
    is one step and the error is below 0.25; at 2 the step is 0.5, the input
    is half-way between two levels and goes up to 1, an error of 0.25. *)
Lemma error_grows_at_fractional_depth :
  1 <= 3 / 2 ∧ 3 / 2 < 2 ∧ 2 <= 16
  ∧ Rabs (BitCrusherReal.generate (3 / 4) 0 2 - 3 / 4) = 1 / 4
  ∧ Rabs (BitCrusherReal.generate (3 / 4) 0 (3 / 2) - 3 / 4) < 1 / 4
  ∧ ¬ (Rabs (BitCrusherReal.generate (3 / 4) 0 2 - 3 / 4)
       <= Rabs (BitCrusherReal.generate (3 / 4) 0 (3 / 2) - 3 / 4)).
Proof.
  rewrite generate_at_two, generate_at_three_halves.
  destruct sqrt_half_bounds as [Hlo Hhi].
  assert (Rabs (1 - 3 / 4) = 1 / 4) as H2.
  { rewrite Rabs_pos_eq; Lra.lra. }
  assert (Rabs (sqrt (1 / 2) - 3 / 4) < 1 / 4) as H1.
  { apply Rabs_def1; Lra.lra. }
  split_and!; [Lra.lra | Lra.lra | Lra.lra | done | done |].
  rewrite H2. Lra.lra.
Qed.

End BitCrusherRealFacts.

(** ** Delay line *)

Section DelayLine.

Implicit Types (line : DelayLine) (buf : list Q) (channel : nat).

Lemma DelayLine_new_wf n channels :
  (0 < n)%Z → DelayLine_wf (DelayLine_.new n channels).
Proof.
  intros Hn. split; simpl.
  - done.
  - by rewrite !length_replicate.
  - apply Forall_replicate. by rewrite length_replicate.
  - apply Forall_replicate. lia.
Qed.

Lemma DelayLine_new_within M n channels :
  0 <= M → DelayLine_within M (DelayLine_.new n channels).
Proof.
  intros HM. unfold DelayLine_within. simpl.
  by do 2 apply Forall_replicate.
Qed.

Lemma sample_at_is_Some buf capacity cursor k :
  (0 < capacity)%Z → length buf = Z.to_nat capacity →
  ∃ v, DelayLine_.sample_at buf capacity cursor k = Some v ∧ v ∈ buf.
Proof.
  intros Hcap Hlen. unfold DelayLine_.sample_at.
  pose proof (Z.mod_pos_bound (cursor - 1 - k) capacity Hcap) as Hmod.
  destruct (lookup_lt_is_Some_2 buf
              (Z.to_nat ((cursor - 1 - k) `mod` capacity))) as [v Hv]; [lia |].
  exists v. split; [done |]. by eapply list_elem_of_lookup_2.
Qed.

Lemma wf_lookup line channel :
  DelayLine_wf line → (channel < length (buffer line))%nat →
  ∃ buf cursor,
    buffer line !! channel = Some buf
    ∧ writeHead line !! channel = Some cursor
    ∧ length buf = Z.to_nat (size line)
    ∧ (0 <= cursor < size line)%Z.
Proof.
  intros [Hsize Hch Hbufs Hcur] Hlt.
  destruct (lookup_lt_is_Some_2 (buffer line) channel Hlt) as [buf Hbuf].
  destruct (lookup_lt_is_Some_2 (writeHead line) channel) as [c Hc]; [lia |].
  pose proof (Forall_lookup_1 _ _ _ _ Hbufs Hbuf) as Hlen.
  pose proof (Forall_lookup_1 _ _ _ _ Hcur Hc) as Hrange.
  by exists buf, c.
Qed.

(** On a line in good shape a read of one of its channels never faults. *)
Lemma get_is_Some line channel delay :
  DelayLine_wf line → (channel < length (buffer line))%nat →
  is_Some (DelayLine_.get line channel delay).
Proof.
  intros Hwf Hlt.
  destruct (wf_lookup _ _ Hwf Hlt) as (buf & c & Hbuf & Hc & Hlen & _).
  pose proof (wf_size _ Hwf) as Hsize.
  unfold DelayLine_.get. rewrite Hbuf, Hc. simpl.
  destruct (Qle_bool _ _).
  - destruct (sample_at_is_Some buf (size line) c (size line - 1))
      as (v & -> & _); done.
  - destruct (sample_at_is_Some buf (size line) c (Qfloor delay))
      as (a & -> & _); [done .. |].
    destruct (sample_at_is_Some buf (size line) c (Qfloor delay + 1))
      as (b & -> & _); done.
Qed.

(** A read returns a value between the stored samples: it is bounded by
    whatever bounds them. *)
Lemma get_within M line channel delay y :
  DelayLine_wf line → DelayLine_within M line →
  DelayLine_.get line channel delay = Some y → Qabs y <= M.
Proof.
  intros Hwf HM Hget. unfold DelayLine_.get in Hget.
  destruct (buffer line !! channel) as [buf|] eqn:Hbuf; [| done].
  destruct (writeHead line !! channel) as [c|] eqn:Hc; [| done].
  simpl in Hget.
  pose proof (wf_size _ Hwf) as Hsize.
  pose proof (Forall_lookup_1 _ _ _ _ (wf_buffers _ Hwf) Hbuf) as Hlen.
  pose proof (Forall_lookup_1 _ _ _ _ HM Hbuf) as Hbound.
  simpl in Hlen, Hbound. rewrite Forall_forall in Hbound.
  destruct (Qle_bool _ _).
  - destruct (sample_at_is_Some buf (size line) c (size line - 1))
      as (v & Hv & Hin); [done .. |].
    rewrite Hv in Hget. injection Hget as <-. by apply Hbound.
  - destruct (sample_at_is_Some buf (size line) c (Qfloor delay))
      as (a & Ha & Hina); [done .. |].
    destruct (sample_at_is_Some buf (size line) c (Qfloor delay + 1))
      as (b & Hb & Hinb); [done .. |].
    rewrite Ha, Hb in Hget. simpl in Hget. injection Hget as <-.
    apply Hbound in Hina, Hinb.
    apply Qabs_Qle_condition in Hina, Hinb. apply Qabs_Qle_condition.
    pose proof (Qfloor_le delay) as Hlo.
    pose proof (Qlt_floor delay) as Hhi.
    rewrite inject_Z_plus in Hhi. change (inject_Z 1) with 1 in Hhi.
    set (f := delay - inject_Z (Qfloor delay)) in *.
    assert (0 <= f) as Hf0 by (unfold f; lra).
    assert (0 <= 1 - f) as Hf1 by (unfold f; lra).
    clearbody f. destruct Hina, Hinb.
    split; nra.
Qed.

Lemma push_is_Some line channel v :
  DelayLine_wf line → (channel < length (buffer line))%nat →
  is_Some (DelayLine_.push line channel v).
Proof.
  intros Hwf Hlt.
  destruct (wf_lookup _ _ Hwf Hlt) as (buf & c & Hbuf & Hc & _).
  unfold DelayLine_.push. rewrite Hbuf, Hc. by eexists.
Qed.

Lemma push_wf line channel v line1 :
  DelayLine_wf line → DelayLine_.push line channel v = Some line1 →
  DelayLine_wf line1
  ∧ size line1 = size line
  ∧ length (buffer line1) = length (buffer line).
Proof.
  intros Hwf Hpush. unfold DelayLine_.push in Hpush.
  destruct (buffer line !! channel) as [buf|] eqn:Hbuf; [| done].
  destruct (writeHead line !! channel) as [c|] eqn:Hc; [| done].
  simpl in Hpush. injection Hpush as <-.
  pose proof (wf_size _ Hwf) as Hsize.
  split_and!; [split; simpl | done | simpl; by rewrite length_insert].
  - done.
  - rewrite !length_insert. apply (wf_channels _ Hwf).
  - apply Forall_insert; [apply (wf_buffers _ Hwf) |].
    rewrite length_insert.
    apply (Forall_lookup_1 _ _ _ _ (wf_buffers _ Hwf) Hbuf).
  - apply Forall_insert; [apply (wf_cursors _ Hwf) |].
    by apply Z.mod_pos_bound.
Qed.

Lemma push_within M line channel v line1 :
  DelayLine_within M line → Qabs v <= M →
  DelayLine_.push line channel v = Some line1 →
  DelayLine_within M line1.
Proof.
  intros HM Hv Hpush. unfold DelayLine_.push in Hpush.
  destruct (buffer line !! channel) as [buf|] eqn:Hbuf; [| done].
  destruct (writeHead line !! channel) as [c|] eqn:Hc; [| done].
  simpl in Hpush. injection Hpush as <-.
  unfold DelayLine_within in *. simpl.
  apply Forall_insert; [done |].
  apply Forall_insert; [| done].
  apply (Forall_lookup_1 _ _ _ _ HM Hbuf).
Qed.

(** A write leaves every other channel as it was. *)
Lemma push_other line channel v line1 other :
  DelayLine_.push line channel v = Some line1 → other ≠ channel →
  buffer line1 !! other = buffer line !! other
  ∧ writeHead line1 !! other = writeHead line !! other.
Proof.
  intros Hpush Hne. unfold DelayLine_.push in Hpush.
  destruct (buffer line !! channel) as [buf|]; [| done].
  destruct (writeHead line !! channel) as [c|]; [| done].
  simpl in Hpush. injection Hpush as <-. simpl.
  by rewrite !list_lookup_insert_ne.
Qed.

(** What has just been written is what a read at delay zero returns. *)
Lemma get_after_push line channel v line1 :
  DelayLine_wf line → DelayLine_.push line channel v = Some line1 →
  ∃ y, DelayLine_.get line1 channel 0 = Some y ∧ y == v.
Proof.
  intros Hwf Hpush.
  destruct (push_wf _ _ _ _ Hwf Hpush) as (Hwf1 & Hsz & Hlen1).
  unfold DelayLine_.push in Hpush.
  destruct (buffer line !! channel) as [buf|] eqn:Hbuf; [| done].
  destruct (writeHead line !! channel) as [c|] eqn:Hc; [| done].
  simpl in Hpush. injection Hpush as <-.
  pose proof (wf_size _ Hwf) as Hsize.
  pose proof (Forall_lookup_1 _ _ _ _ (wf_buffers _ Hwf) Hbuf) as Hlen.
  pose proof (Forall_lookup_1 _ _ _ _ (wf_cursors _ Hwf) Hc) as Hcur.
  simpl in Hlen, Hcur.
  pose proof (lookup_lt_Some _ _ _ Hbuf) as Hlt.
  pose proof (lookup_lt_Some _ _ _ Hc) as Hlt'.
  unfold DelayLine_.get. simpl.
  rewrite !list_lookup_insert_eq by done. simpl.
  destruct (Qle_bool (inject_Z (size line)) 0) eqn:Hle.
  { apply Qle_bool_imp_le in Hle. change 0 with (inject_Z 0) in Hle.
    rewrite <- Zle_Qle in Hle. lia. }
  change (0 `div` 1)%Z with 0%Z.
  set (buf1 := <[Z.to_nat c := v]> buf).
  assert (DelayLine_.sample_at buf1 (size line) ((c + 1) `mod` size line) 0
          = Some v) as ->.
  { unfold DelayLine_.sample_at.
    replace (((c + 1) `mod` size line - 1 - 0) `mod` size line)%Z with c.
    - subst buf1. apply list_lookup_insert_eq. lia.
    - rewrite Z.sub_0_r, Zminus_mod_idemp_l.
      replace (c + 1 - 1)%Z with c by lia. by rewrite Z.mod_small. }
  destruct (sample_at_is_Some buf1 (size line) ((c + 1) `mod` size line)
              (0 + 1)) as (b & -> & _); [done | |].
  { subst buf1. by rewrite length_insert. }
  simpl. eexists. split; [done |]. change (inject_Z 0) with 0. ring.
Qed.

End DelayLine.

(** ** Feedback comb filter *)

Section FeedbackComb.

Implicit Types (this : FeedbackCombFilterProcessor) (channel : nat).

Lemma comb_new_channels options :
  length (buffer (delayLine (FeedbackCombFilterProcessor_.new options)))
  = js_or (channelCount options) 2.
Proof.
  unfold FeedbackCombFilterProcessor_.new, FeedbackCombFilterProcessor_.init.
  unfold DelayLine_.new. cbn [delayLine buffer]. apply length_replicate.
Qed.

Lemma comb_new_wf options :
  DelayLine_wf (delayLine (FeedbackCombFilterProcessor_.new options)).
Proof.
  unfold FeedbackCombFilterProcessor_.new, FeedbackCombFilterProcessor_.init.
  cbn [delayLine]. apply DelayLine_new_wf. reflexivity.
Qed.

(** [generate] spelled out on a state whose delay line is in good shape. *)
Lemma comb_generate_spec this input channel parameters :
  DelayLine_wf (delayLine this) →
  (channel < length (buffer (delayLine this)))%nat →
  ∃ delayed line,
    DelayLine_.get (delayLine this) channel
      (delayTime parameters * inject_Z (sampleRate (comb_super this)))
    = Some delayed
    ∧ DelayLine_.push (delayLine this) channel
        (input + delayed * feedback parameters) = Some line
    ∧ FeedbackCombFilterProcessor_.generate this input channel parameters
      = Some (delayed, {| comb_super := comb_super this; delayLine := line |}).
Proof.
  intros Hwf Hlt.
  destruct (get_is_Some (delayLine this) channel
              (delayTime parameters * inject_Z (sampleRate (comb_super this)))
              Hwf Hlt) as [delayed Hget].
  destruct (push_is_Some (delayLine this) channel
              (input + delayed * feedback parameters) Hwf Hlt) as [line Hpush].
  exists delayed, line. split_and!; [done | done |].
  unfold FeedbackCombFilterProcessor_.generate. rewrite Hget. simpl.
  by rewrite Hpush.
Qed.

(** One bounded input sample keeps a bounded filter bounded. *)
Lemma comb_generate_within B fb this input channel dt y this1 :
  0 <= fb → fb < 1 → 0 <= B → Qabs input <= B →
  DelayLine_wf (delayLine this) →
  DelayLine_within (B / (1 - fb)) (delayLine this) →
  FeedbackCombFilterProcessor_.generate this input channel
    {| delayTime := dt; feedback := fb |} = Some (y, this1) →
  Qabs y <= B / (1 - fb)
  ∧ DelayLine_wf (delayLine this1)
  ∧ DelayLine_within (B / (1 - fb)) (delayLine this1)
  ∧ length (buffer (delayLine this1)) = length (buffer (delayLine this)).
Proof.
  intros Hfb0 Hfb1 HB Hin Hwf HM Hgen.
  unfold FeedbackCombFilterProcessor_.generate in Hgen. simpl in Hgen.
  destruct (DelayLine_.get _ _ _) as [delayed|] eqn:Hget; [| done].
  simpl in Hgen.
  destruct (DelayLine_.push _ _ _) as [line|] eqn:Hpush; [| done].
  simpl in Hgen. injection Hgen as <- <-. simpl.
  pose proof (get_within _ _ _ _ _ Hwf HM Hget) as Hy.
  destruct (push_wf _ _ _ _ Hwf Hpush) as (Hwf1 & _ & Hlen).
  split_and!; [done | done | | done].
  eapply push_within; [done | | done].
  set (M := B / (1 - fb)) in *.
  assert (M * (1 - fb) == B) as HMB by (unfold M; field; lra).
  apply Qabs_Qle_condition in Hy, Hin. apply Qabs_Qle_condition.
  destruct Hy, Hin. clearbody M. split; nra.
Qed.

Lemma comb_run_within B fb calls : ∀ this,
  0 <= fb → fb < 1 → 0 <= B →
  DelayLine_wf (delayLine this) →
  DelayLine_within (B / (1 - fb)) (delayLine this) →
  Forall (λ c, Qabs (call_input c) <= B
               ∧ (call_channel c < length (buffer (delayLine this)))%nat)
         calls →
  ∃ outputs this1,
    comb_run this fb calls = Some (outputs, this1)
    ∧ Forall (λ y, Qabs y <= B / (1 - fb)) outputs
    ∧ DelayLine_wf (delayLine this1)
    ∧ DelayLine_within (B / (1 - fb)) (delayLine this1).
Proof.
  induction calls as [| c calls IH]; intros this Hfb0 Hfb1 HB Hwf HM Hcalls.
  - exists [], this. by split_and!.
  - apply Forall_cons in Hcalls as [[Hin Hch] Hrest].
    destruct (comb_generate_spec this (call_input c) (call_channel c)
                {| delayTime := call_delayTime c; feedback := fb |} Hwf Hch)
      as (y & line & _ & _ & Hgen).
    destruct (comb_generate_within _ _ _ _ _ _ _ _ Hfb0 Hfb1 HB Hin Hwf HM Hgen)
      as (Hy & Hwf1 & HM1 & Hlen).
    destruct (IH _ Hfb0 Hfb1 HB Hwf1 HM1) as (ys & this2 & Hrun & Hys & Hwf2 & HM2).
    { rewrite Hlen. done. }
    exists (y :: ys), this2. simpl. rewrite Hgen. simpl. rewrite Hrun. simpl.
    split_and!; [done | by constructor | done | done].
Qed.

End FeedbackComb.

(** C1. On a comb filter whose delay line is in good shape and for each of
    its channels, one call to [generate] reads [delayed] from the delay line
    at the delay [delayTime * sampleRate] on that channel, then writes
    [input + delayed * feedback] to that channel and returns [delayed], the
    delayed sample and not the sum.  The written sum is what the line holds
    at delay zero afterwards, and the other channels are untouched. *)
Theorem FeedbackComb_generate_reads_then_writes
    (this : FeedbackCombFilterProcessor) (input : Q) (channel : nat)
    (parameters : FeedbackCombFilterParameters) :
  DelayLine_wf (delayLine this) →
  (channel < length (buffer (delayLine this)))%nat →
  ∃ delayed line,
    DelayLine_.get (delayLine this) channel
      (delayTime parameters * inject_Z (sampleRate (base this)))
    = Some delayed
    ∧ DelayLine_.push (delayLine this) channel
        (input + delayed * feedback parameters) = Some line
    ∧ generate this input channel parameters
      = Some (delayed, {| comb_super := comb_super this; delayLine := line |})
    ∧ (∃ y, DelayLine_.get line channel 0 = Some y
            ∧ y == input + delayed * feedback parameters)
    ∧ (∀ other, other ≠ channel →
         buffer line !! other = buffer (delayLine this) !! other
         ∧ writeHead line !! other = writeHead (delayLine this) !! other).
Proof.
  intros Hwf Hlt.
  destruct (comb_generate_spec this input channel parameters Hwf Hlt)
    as (delayed & line & Hget & Hpush & Hgen).
  exists delayed, line. split_and!; [done | done | done | |].
  - by eapply get_after_push.
  - intros other Hne. by eapply push_other.
Qed.

Lemma FeedbackComb_generate_reads_then_writes_witness :
  let this := FeedbackCombFilterProcessor_.new {| channelCount := None |} in
  let parameters := {| delayTime := 1 # 10; feedback := 1 # 2 |} in
  ∃ delayed line,
    DelayLine_.get (delayLine this) 0
      (delayTime parameters * inject_Z (sampleRate (base this)))
    = Some delayed
    ∧ DelayLine_.push (delayLine this) 0
        (1 + delayed * feedback parameters) = Some line
    ∧ generate this 1 0%nat parameters
      = Some (delayed, {| comb_super := comb_super this; delayLine := line |})
    ∧ (∃ y, DelayLine_.get line 0 0 = Some y
            ∧ y == 1 + delayed * feedback parameters)
    ∧ (∀ other, other ≠ 0%nat →
         buffer line !! other = buffer (delayLine this) !! other
         ∧ writeHead line !! other = writeHead (delayLine this) !! other).
Proof.
  intros this parameters.
  apply (FeedbackComb_generate_reads_then_writes this 1 0 parameters).
  - apply comb_new_wf.
  - unfold this. rewrite comb_new_channels. simpl. lia.
Defined.

(** C3. With a feedback in [0, 0.9999] and input samples bounded by [B] in
    absolute value, any run of [generate] calls on a freshly constructed comb
    filter, on any of its channels and with any delay times, succeeds, and
    every output sample and every sample stored in the delay line is bounded
    by [B / (1 - feedback)], however long the run. *)
Theorem FeedbackComb_bounded
    (options : ProcessorOptions) (fb B : Q) (calls : list CombCall) :
  0 <= fb <= 9999 # 10000 →
  0 <= B →
  Forall (λ c, Qabs (call_input c) <= B
               ∧ (call_channel c < js_or (channelCount options) 2)%nat)
         calls →
  ∃ outputs this,
    comb_run (FeedbackCombFilterProcessor_.new options) fb calls
    = Some (outputs, this)
    ∧ Forall (λ y, Qabs y <= B / (1 - fb)) outputs
    ∧ DelayLine_within (B / (1 - fb)) (delayLine this).
Proof.
  intros [Hfb0 Hfb1] HB Hcalls.
  assert (fb < 1) as Hlt by lra.
  assert (0 <= B / (1 - fb)) as HM.
  { apply Qle_shift_div_l; lra. }
  destruct (comb_run_within B fb calls
              (FeedbackCombFilterProcessor_.new options))
    as (outputs & this & Hrun & Houts & _ & Hwithin);
    [done | done | done | apply comb_new_wf | | | ].
  - by apply DelayLine_new_within.
  - by rewrite comb_new_channels.
  - by exists outputs, this.
Qed.

Lemma FeedbackComb_bounded_witness :
  ∃ outputs this,
    comb_run (FeedbackCombFilterProcessor_.new {| channelCount := Some 1%nat |})
      (1 # 2)
      [ {| call_input := 1; call_channel := 0; call_delayTime := 0 |};
        {| call_input := - (1); call_channel := 0; call_delayTime := 1 # 44100 |} ]
    = Some (outputs, this)
    ∧ Forall (λ y, Qabs y <= 1 / (1 - (1 # 2))) outputs
    ∧ DelayLine_within (1 / (1 - (1 # 2))) (delayLine this).
Proof.
  apply (FeedbackComb_bounded {| channelCount := Some 1%nat |} (1 # 2) 1).
  - split; [by vm_compute | by vm_compute].
  - by vm_compute.
  - repeat constructor; simpl; solve [by vm_compute | lia].
Defined.





(** ** The base class: constants and disposal *)

Section Base.

Context `{SingleIOProcessor P Par}.

Implicit Types (this : P) (b : ToneAudioWorkletProcessor).

Lemma onmessage_constants b data :
  sampleRate (ToneAudioWorkletProcessor_.onmessage b data) = sampleRate b
  ∧ blockSize (ToneAudioWorkletProcessor_.onmessage b data) = blockSize b.
Proof.
  unfold ToneAudioWorkletProcessor_.onmessage. by destruct (String.eqb _ _).
Qed.

(** The only assignment to [disposed] outside the constructor writes
    [true]. *)
Lemma onmessage_disposed b data :
  disposed b = true →
  ToneAudioWorkletProcessor_.onmessage b data = b.
Proof.
  intros Hd. unfold ToneAudioWorkletProcessor_.onmessage.
  destruct (String.eqb _ _); [| done].
  destruct b as [d bs sr]. simpl in *. by subst d.
Qed.

Lemma receive_disposed this data :
  disposed (base this) = true → receive this data = this.
Proof.
  intros Hd. unfold receive. rewrite onmessage_disposed by done.
  apply with_base_base.
Qed.

Lemma process_disposed this inputs parameters :
  disposed (base this) = true →
  process this inputs parameters = Some (silence inputs, this).
Proof. intros Hd. unfold process. by rewrite Hd. Qed.

Lemma after_disposed this evs :
  disposed (base this) = true → after this evs = Some this.
Proof.
  intros Hd. induction evs as [| ev evs IH]; [done |].
  simpl. destruct ev as [inputs parameters | data]; simpl.
  - by rewrite process_disposed.
  - by rewrite receive_disposed.
Qed.

Lemma silence_zero inputs :
  Forall (Forall (λ y, y = 0)) (silence inputs)
  ∧ length <$> silence inputs = length <$> inputs.
Proof.
  unfold silence. split.
  - apply Forall_fmap, Forall_true. intros input. by apply Forall_replicate.
  - rewrite <- list_fmap_compose. apply list_fmap_ext.
    intros i input _. simpl. apply length_replicate.
Qed.

(** Where [generate] leaves the base class alone, so does everything the
    host can do to a node, apart from the disposal flag. *)
Section Constants.

Variable new : ProcessorOptions → P.

Hypothesis new_base :
  ∀ options, base (new options) = ToneAudioWorkletProcessor_.new options.

Hypothesis generate_base :
  ∀ this input channel parameters y this1,
    generate this input channel parameters = Some (y, this1) →
    base this1 = base this.

Lemma feed_base input : ∀ this channel parameters outputs this1,
  feed this channel parameters input = Some (outputs, this1) →
  base this1 = base this.
Proof.
  induction input as [| x input IH]; intros this channel parameters outputs this1.
  - simpl. by intros [= _ <-].
  - simpl. destruct (generate this x channel parameters) as [[y this2]|] eqn:Hg;
      [| done].
    simpl. destruct (feed this2 channel parameters input) as [[ys this3]|] eqn:Hf;
      [| done].
    simpl. intros [= _ <-].
    rewrite (IH _ _ _ _ _ Hf). by eapply generate_base.
Qed.

Lemma process_channels_base inputs : ∀ this channel parameters outputs this1,
  process_channels this channel parameters inputs = Some (outputs, this1) →
  base this1 = base this.
Proof.
  induction inputs as [| input inputs IH];
    intros this channel parameters outputs this1.
  - simpl. by intros [= _ <-].
  - simpl. destruct (feed this channel parameters input) as [[o this2]|] eqn:Hf;
      [| done].
    simpl.
    destruct (process_channels this2 (S channel) parameters inputs)
      as [[os this3]|] eqn:Hp; [| done].
    simpl. intros [= _ <-].
    rewrite (IH _ _ _ _ _ Hp). by eapply feed_base.
Qed.

Lemma process_base this inputs parameters outputs this1 :
  process this inputs parameters = Some (outputs, this1) →
  base this1 = base this.
Proof.
  unfold process. destruct (disposed (base this)).
  - by intros [= _ <-].
  - apply process_channels_base.
Qed.

Lemma reachable_constants this :
  reachable new this →
  sampleRate (base this) = 44100%Z ∧ blockSize (base this) = 256%Z.
Proof.
  induction 1 as [options | this input channel parameters y this1 _ IH Hg
                 | this inputs parameters outputs this1 _ IH Hp
                 | this data _ IH].
  - by rewrite new_base.
  - by rewrite (generate_base _ _ _ _ _ _ Hg).
  - by rewrite (process_base _ _ _ _ _ Hp).
  - unfold receive. rewrite base_with_base.
    destruct (onmessage_constants (base this) data) as [-> ->]. done.
Qed.

End Constants.

End Base.

Lemma comb_new_base options :
  base (FeedbackCombFilterProcessor_.new options)
  = ToneAudioWorkletProcessor_.new options.
Proof. reflexivity. Qed.

Lemma crusher_new_base options :
  base (BitCrusherProcessor_.new options)
  = ToneAudioWorkletProcessor_.new options.
Proof. reflexivity. Qed.

Lemma comb_generate_base this input channel parameters y this1 :
  FeedbackCombFilterProcessor_.generate this input channel parameters
  = Some (y, this1) →
  comb_super this1 = comb_super this.
Proof.
  unfold FeedbackCombFilterProcessor_.generate.
  destruct (DelayLine_.get _ _ _) as [delayed|]; [| done]. simpl.
  destruct (DelayLine_.push _ _ _) as [line|]; [| done]. simpl.
  by intros [= _ <-].
Qed.

(** C10. Every processor, whatever the construction options, starts with
    sample rate 44100 and block size 256, and nothing the host can do
    afterwards changes either; this holds for the feedback comb filter and
    for the bit crusher.  In consequence every [generate] call of the comb
    filter reads the delay line at [delayTime * 44100]. *)
Theorem sampleRate_and_blockSize_fixed :
  (∀ options,
     ToneAudioWorkletProcessor_.new options
     = {| disposed := false; blockSize := 256; sampleRate := 44100 |})
  ∧ (∀ this : FeedbackCombFilterProcessor,
       reachable FeedbackCombFilterProcessor_.new this →
       sampleRate (base this) = 44100%Z
       ∧ blockSize (base this) = 256%Z
       ∧ ∀ input channel parameters,
           generate this input channel parameters
           = (delayedSample ← DelayLine_.get (delayLine this) channel
                                (delayTime parameters * 44100);
              line ← DelayLine_.push (delayLine this) channel
                       (input + delayedSample * feedback parameters);
              Some (delayedSample,
                    {| comb_super := comb_super this; delayLine := line |})))
  ∧ (∀ this : BitCrusherProcessor,
       reachable BitCrusherProcessor_.new this →
       sampleRate (base this) = 44100%Z ∧ blockSize (base this) = 256%Z).
Proof.
  split_and!.
  - done.
  - intros this Hreach.
    destruct (reachable_constants FeedbackCombFilterProcessor_.new
                comb_new_base comb_generate_base this Hreach) as [Hsr Hbs].
    split_and!; [done | done |].
    intros input channel parameters. simpl in Hsr.
    unfold generate. simpl. unfold FeedbackCombFilterProcessor_.generate.
    by rewrite Hsr.
  - intros this Hreach.
    apply (reachable_constants BitCrusherProcessor_.new crusher_new_base);
      [| done].
    simpl. by intros ? ? ? ? ? ? [= _ <-].
Qed.

Lemma sampleRate_and_blockSize_fixed_witness :
  let this :=
    receive (FeedbackCombFilterProcessor_.new {| channelCount := Some 1%nat |})
      "dispose" in
  sampleRate (base this) = 44100%Z ∧ blockSize (base this) = 256%Z.
Proof.
  intros this.
  destruct (proj1 (proj2 sampleRate_and_blockSize_fixed) this) as (? & ? & _).
  - unfold this. apply reach_message, reach_new.
  - by split.
Defined.

(** C5. For every processor: once the message ["dispose"] has been received
    the disposed flag is set; whatever block requests and messages follow,
    none of them faults and the node stays exactly as it is (so the flag is
    never cleared); every block request is answered with an all-zero block of
    the shape of its input; and a second ["dispose"] changes nothing. *)
Theorem dispose_is_permanent `{SingleIOProcessor P Par} (this : P) :
  let gone := receive this "dispose" in
  disposed (base gone) = true
  ∧ (∀ evs, after gone evs = Some gone)
  ∧ (∀ inputs parameters,
       process gone inputs parameters = Some (silence inputs, gone)
       ∧ Forall (Forall (λ y, y = 0)) (silence inputs)
       ∧ length <$> silence inputs = length <$> inputs)
  ∧ receive gone "dispose" = gone.
Proof.
  intros gone.
  assert (disposed (base gone) = true) as Hd.
  { unfold gone, receive. by rewrite base_with_base. }
  split_and!.
  - done.
  - intros evs. by apply after_disposed.
  - intros inputs parameters.
    destruct (silence_zero inputs) as [Hz Hl].
    split_and!; [by apply process_disposed | done | done].
  - by apply receive_disposed.
Qed.

Lemma dispose_is_permanent_witness :
  let gone :=
    receive (BitCrusherProcessor_.new {| channelCount := None |}) "dispose" in
  disposed (base gone) = true
  ∧ (∀ evs, after gone evs = Some gone)
  ∧ (∀ inputs parameters,
       process gone inputs parameters = Some (silence inputs, gone)
       ∧ Forall (Forall (λ y, y = 0)) (silence inputs)
       ∧ length <$> silence inputs = length <$> inputs)
  ∧ receive gone "dispose" = gone.
Proof.
  exact (dispose_is_permanent
           (BitCrusherProcessor_.new {| channelCount := None |})).
Defined.

(** ** Freeverb *)

Lemma set_dampening_combs (combs : list LowpassCombFilter) (d : Q) :
  let combs1 :=
    (λ c, {| comb_id := comb_id c;
             comb_delayTime := comb_delayTime c;
             dampening := d |}) <$> combs in
  length combs1 = length combs
  ∧ Forall (λ c, dampening c = d) combs1
  ∧ comb_id <$> combs1 = comb_id <$> combs.
Proof.
  intros combs1. split_and!.
  - apply length_fmap.
  - apply Forall_fmap, Forall_true. done.
  - unfold combs1. rewrite <- list_fmap_compose. done.
Qed.

(** C8. In [Freeverb] and in [Freeverb1] alike the constructor makes eight
    comb filters, all distinct, and connects the one [roomSize] signal to the
    [resonance] of each of them; and setting [dampening] to [d], on any
    instance, leaves every comb filter of the instance with dampening [d]
    (the same filters, still eight on a constructed instance). *)
Theorem Freeverb_shared_controls (options : FreeverbOptions) (d : Q) :
  (let this := Freeverb.new options in
   length (Freeverb._combFilters this) = 8%nat
   ∧ NoDup (comb_id <$> Freeverb._combFilters this)
   ∧ Forall (λ c, connect (SignalOf (signal_name (Freeverb.roomSize this)))
                    (resonance c) ∈ Freeverb.wiring this)
            (Freeverb._combFilters this)
   ∧ length (Freeverb._combFilters (Freeverb.set_dampening this d)) = 8%nat)
  ∧ (∀ this : Freeverb.t,
       Forall (λ c, dampening c = d)
              (Freeverb._combFilters (Freeverb.set_dampening this d))
       ∧ comb_id <$> Freeverb._combFilters (Freeverb.set_dampening this d)
         = comb_id <$> Freeverb._combFilters this)
  ∧ (let this := Freeverb1.new options in
     length (Freeverb1._combFilters this) = 8%nat
     ∧ NoDup (comb_id <$> Freeverb1._combFilters this)
     ∧ Forall (λ c, connect (SignalOf (signal_name (Freeverb1.roomSize this)))
                      (resonance c) ∈ Freeverb1.wiring this)
              (Freeverb1._combFilters this)
     ∧ length (Freeverb1._combFilters (Freeverb1.set_dampening this d)) = 8%nat)
  ∧ (∀ this : Freeverb1.t,
       Forall (λ c, dampening c = d)
              (Freeverb1._combFilters (Freeverb1.set_dampening this d))
       ∧ comb_id <$> Freeverb1._combFilters (Freeverb1.set_dampening this d)
         = comb_id <$> Freeverb1._combFilters this).
Proof.
  split_and!.
  - cbv zeta. split_and!.
    + reflexivity.
    + apply (bool_decide_unpack _). by vm_compute.
    + repeat constructor; apply list_elem_of_In; simpl; tauto.
    + reflexivity.
  - intros this.
    destruct (set_dampening_combs (Freeverb._combFilters this) d) as (_ & ? & ?).
    done.
  - cbv zeta. split_and!.
    + reflexivity.
    + apply (bool_decide_unpack _). by vm_compute.
    + repeat constructor; apply list_elem_of_In; simpl; tauto.
    + reflexivity.
  - intros this.
    destruct (set_dampening_combs (Freeverb1._combFilters this) d) as (_ & ? & ?).
    done.
Qed.

(** * Further properties *)

(** ** Bit crusher: order, shifts, fixed points, range *)

Section BitCrusherMore.

Implicit Types (x y t s : Q) (b k n : Z).

Lemma Qfloor_unique t n :
  inject_Z n <= t → t < inject_Z (n + 1) → Qfloor t = n.
Proof.
  intros Hlo Hhi.
  pose proof (Qfloor_le t) as Hle. pose proof (Qlt_floor t) as Hlt.
  assert (inject_Z n < inject_Z (Qfloor t + 1)) as H1 by lra.
  assert (inject_Z (Qfloor t) < inject_Z (n + 1)) as H2 by lra.
  rewrite <- Zlt_Qlt in H1, H2. lia.
Qed.

Lemma Qfloor_add_Z t k : Qfloor (t + inject_Z k) = (Qfloor t + k)%Z.
Proof.
  pose proof (Qfloor_le t) as Hle. pose proof (Qlt_floor t) as Hlt.
  apply Qfloor_unique.
  - rewrite inject_Z_plus. lra.
  - rewrite !inject_Z_plus in *. lra.
Qed.

Lemma crusher_generate_step x channel b :
  BitCrusherProcessor_.generate x channel {| bits := b |}
  = crusher_step b * Math.floor (x / crusher_step b + (1 # 2)).
Proof. reflexivity. Qed.

Lemma crusher_step_pos b : 0 < crusher_step b.
Proof. apply step_pos. Qed.

Lemma div_le_div s x y : 0 < s → x <= y → x / s <= y / s.
Proof.
  intros Hs Hxy. unfold Qdiv. apply Qmult_le_compat_r; [done |].
  apply Qlt_le_weak, Qinv_lt_0_compat, Hs.
Qed.

(** One is a whole number of steps as soon as the bit depth is at least 1. *)
Lemma one_on_grid b :
  (1 <= b)%Z → 1 == crusher_step b * inject_Z (2 ^ (b - 1)).
Proof.
  intros Hb. unfold crusher_step.
  pose proof (coarse_step_multiple 0 (b - 1) ltac:(lia)) as H.
  rewrite Z.sub_0_r in H. exact H.
Qed.

Lemma crusher_monotone x y channel b :
  x <= y →
  BitCrusherProcessor_.generate x channel {| bits := b |}
  <= BitCrusherProcessor_.generate y channel {| bits := b |}.
Proof.
  intros Hxy. rewrite !crusher_generate_step.
  pose proof (crusher_step_pos b) as Hs.
  apply Qmult_le_l; [done |]. unfold Math.floor.
  rewrite <- Zle_Qle. apply Qfloor_resp_le.
  pose proof (div_le_div _ _ _ Hs Hxy). lra.
Qed.

Lemma crusher_fixed_on_grid channel b n :
  BitCrusherProcessor_.generate (crusher_step b * inject_Z n)
    channel {| bits := b |}
  = crusher_step b * inject_Z n.
Proof.
  rewrite crusher_generate_step. by rewrite grid_fixed by apply crusher_step_pos.
Qed.

End BitCrusherMore.

(** X1. The bit crusher preserves order: a larger input never gives a
    smaller output, at any bit depth. *)
Theorem BitCrusher_generate_monotone
    (x y : Q) (channel : nat) (parameters : BitCrusherParameters) :
  x <= y →
  BitCrusherProcessor_.generate x channel parameters
  <= BitCrusherProcessor_.generate y channel parameters.
Proof.
  intros Hxy. destruct parameters as [b]. by apply crusher_monotone.
Qed.

Lemma BitCrusher_generate_monotone_witness :
  BitCrusherProcessor_.generate (3 # 10) 0 {| bits := 3 |}
  <= BitCrusherProcessor_.generate (6 # 10) 0 {| bits := 3 |}.
Proof.
  apply (BitCrusher_generate_monotone (3 # 10) (6 # 10) 0 {| bits := 3 |}).
  by vm_compute.
Defined.

(** X2. Shifting the input by a whole number of quantization steps shifts
    the output of the bit crusher by the same amount. *)
Theorem BitCrusher_generate_shift
    (x : Q) (k : Z) (channel : nat) (b : Z) :
  BitCrusherProcessor_.generate (x + crusher_step b * inject_Z k)
    channel {| bits := b |}
  == BitCrusherProcessor_.generate x channel {| bits := b |}
     + crusher_step b * inject_Z k.
Proof.
  rewrite !crusher_generate_step.
  pose proof (crusher_step_pos b) as Hs.
  set (s := crusher_step b) in *.
  assert ((x + s * inject_Z k) / s + (1 # 2)
          == x / s + (1 # 2) + inject_Z k) as -> by (field; lra).
  unfold Math.floor. rewrite Qfloor_add_Z, inject_Z_plus. ring.
Qed.

(** X3. The samples the bit crusher leaves unchanged are exactly the whole
    multiples of the quantization step. *)
Theorem BitCrusher_fixed_points (x : Q) (channel : nat) (b : Z) :
  BitCrusherProcessor_.generate x channel {| bits := b |} == x
  ↔ ∃ n : Z, x == crusher_step b * inject_Z n.
Proof.
  rewrite crusher_generate_step.
  pose proof (crusher_step_pos b) as Hs.
  split.
  - intros H. exists (Qfloor (x / crusher_step b + (1 # 2))).
    symmetry. exact H.
  - intros [n Hn]. rewrite Hn at 1.
    rewrite grid_fixed by done. symmetry. exact Hn.
Qed.

(** X4. At a whole bit depth of at least 1, a normalized sample stays
    normalized: an input in [-1, 1] gives an output in [-1, 1].  (Whole
    depths only: a fractional depth has a step of which 1 is no multiple.) *)
Theorem BitCrusher_keeps_normal_range (x : Q) (channel : nat) (b : Z) :
  (1 <= b)%Z →
  - (1) <= x <= 1 →
  - (1) <= BitCrusherProcessor_.generate x channel {| bits := b |} <= 1.
Proof.
  intros Hb [Hlo Hhi].
  pose proof (one_on_grid b Hb) as Hone.
  pose proof (crusher_fixed_on_grid channel b (2 ^ (b - 1))) as H1.
  pose proof (crusher_fixed_on_grid channel b (- 2 ^ (b - 1))) as H2.
  set (top := crusher_step b * inject_Z (2 ^ (b - 1))) in *.
  set (bottom := crusher_step b * inject_Z (- 2 ^ (b - 1))) in *.
  assert (bottom == - (1)) as Hbottom.
  { unfold bottom. rewrite inject_Z_opp.
    assert (crusher_step b * - inject_Z (2 ^ (b - 1))
            == - (crusher_step b * inject_Z (2 ^ (b - 1)))) as -> by ring.
    fold top. lra. }
  assert (bottom <= x) as Hlo1 by lra.
  assert (x <= top) as Hhi1 by lra.
  apply (crusher_monotone _ _ channel b) in Hlo1, Hhi1.
  rewrite H1 in Hhi1. rewrite H2 in Hlo1. split; lra.
Qed.

Lemma BitCrusher_keeps_normal_range_witness :
  - (1) <= BitCrusherProcessor_.generate (9 # 10) 0 {| bits := 2 |} <= 1.
Proof.
  apply (BitCrusher_keeps_normal_range (9 # 10) 0 2).
  - lia.
  - split; by vm_compute.
Defined.

(** X5. The bit crusher is odd up to its tie rule: the output for [- x] is
    the negated output for [x], except when [x] lies exactly half-way between
    two levels, where rounding up on both sides leaves the two outputs one
    step apart. *)
Theorem BitCrusher_odd_up_to_ties (x : Q) (channel : nat) (b : Z) :
  let g := λ v, BitCrusherProcessor_.generate v channel {| bits := b |} in
  (g (- x) == - g x ∨ g (- x) == - g x + crusher_step b)
  ∧ (∀ k : Z,
       g (- (crusher_step b * (inject_Z k + (1 # 2))))
       == - g (crusher_step b * (inject_Z k + (1 # 2))) + crusher_step b).
Proof.
  intros g. unfold g. pose proof (crusher_step_pos b) as Hs.
  assert (∀ v,
    BitCrusherProcessor_.generate v channel {| bits := b |}
    = crusher_step b * inject_Z (Qfloor (v / crusher_step b + (1 # 2)))) as Hg
    by reflexivity.
  rewrite !Hg. set (s := crusher_step b) in *.
  split.
  - pose proof (Qfloor_le (x / s + (1 # 2))) as Hle.
    pose proof (Qlt_floor (x / s + (1 # 2))) as Hlt.
    set (n := Qfloor (x / s + (1 # 2))) in *.
    rewrite inject_Z_plus in Hlt. change (inject_Z 1) with 1 in Hlt.
    assert (- x / s == - (x / s)) as Hneg by (field; lra).
    destruct (Qlt_le_dec (inject_Z n) (x / s + (1 # 2))) as [Hstrict | Htie].
    + left.
      assert (Qfloor (- x / s + (1 # 2)) = (- n)%Z) as ->.
      { apply Qfloor_unique.
        - rewrite inject_Z_opp. lra.
        - rewrite inject_Z_plus, inject_Z_opp. change (inject_Z 1) with 1. lra. }
      rewrite inject_Z_opp. ring.
    + right.
      assert (Qfloor (- x / s + (1 # 2)) = (- n + 1)%Z) as ->.
      { apply Qfloor_unique.
        - rewrite inject_Z_plus, inject_Z_opp. change (inject_Z 1) with 1. lra.
        - rewrite !inject_Z_plus, inject_Z_opp. change (inject_Z 1) with 1. lra. }
      rewrite inject_Z_plus, inject_Z_opp. change (inject_Z 1) with 1. ring.
  - intros k.
    rewrite !Hg.
    assert (- (s * (inject_Z k + (1 # 2))) / s + (1 # 2) == inject_Z (- k)) as ->.
    { rewrite inject_Z_opp. field. lra. }
    assert (s * (inject_Z k + (1 # 2)) / s + (1 # 2) == inject_Z (k + 1)) as ->.
    { rewrite inject_Z_plus. change (inject_Z 1) with 1. field. lra. }
    rewrite !Qfloor_Z, inject_Z_plus, inject_Z_opp.
    change (inject_Z 1) with 1. ring.
Qed.

(** ** Port messages *)

Section Messages.

Context `{SingleIOProcessor P Par}.

Implicit Types (this : P) (b : ToneAudioWorkletProcessor) (data : string).

Lemma onmessage_other b data :
  data ≠ "dispose" → ToneAudioWorkletProcessor_.onmessage b data = b.
Proof.
  intros Hne. unfold ToneAudioWorkletProcessor_.onmessage.
  destruct (String.eqb data "dispose") eqn:Heq; [| done].
  by apply String.eqb_eq in Heq.
Qed.

Lemma onmessage_flag b data :
  disposed (ToneAudioWorkletProcessor_.onmessage b data)
  = disposed b || bool_decide (data = "dispose").
Proof.
  unfold ToneAudioWorkletProcessor_.onmessage.
  destruct (String.eqb data "dispose") eqn:Heq.
  - apply String.eqb_eq in Heq. subst data. cbn [disposed].
    rewrite bool_decide_eq_true_2 by done. by rewrite orb_true_r.
  - apply String.eqb_neq in Heq.
    rewrite bool_decide_eq_false_2 by done. by rewrite orb_false_r.
Qed.

Lemma receive_all_cons this data msgs :
  receive_all this (data :: msgs) = receive_all (receive this data) msgs.
Proof. reflexivity. Qed.

End Messages.

(** X6. For every processor and every sequence of port messages: the node
    is disposed afterwards exactly if it was before or the sequence holds
    the message ["dispose"]; sample rate and block size are as before; and a
    sequence without ["dispose"] leaves the node as it was. *)
Theorem disposed_iff_dispose_received `{SingleIOProcessor P Par}
    (msgs : list string) (this : P) :
  disposed (base (receive_all this msgs))
  = disposed (base this) || bool_decide ("dispose" ∈ msgs)
  ∧ sampleRate (base (receive_all this msgs)) = sampleRate (base this)
  ∧ blockSize (base (receive_all this msgs)) = blockSize (base this)
  ∧ ("dispose" ∉ msgs → receive_all this msgs = this).
Proof.
  revert this. induction msgs as [| data msgs IH]; intros this.
  - change (receive_all this []) with this.
    rewrite bool_decide_eq_false_2 by apply not_elem_of_nil.
    rewrite orb_false_r. done.
  - rewrite receive_all_cons.
    destruct (IH (receive this data)) as (Hd & Hsr & Hbs & Hid).
    rewrite Hd, Hsr, Hbs. unfold receive at 1 2 3. rewrite !base_with_base.
    rewrite onmessage_flag.
    destruct (onmessage_constants (base this) data) as [-> ->].
    split_and!; [| done | done |].
    + rewrite <- orb_assoc. f_equal.
      destruct (decide (data = "dispose")) as [-> | Hne].
      * rewrite (bool_decide_eq_true_2 ("dispose" = "dispose")) by done.
        by rewrite (bool_decide_eq_true_2 ("dispose" ∈ "dispose" :: msgs))
          by apply list_elem_of_here.
      * rewrite (bool_decide_eq_false_2 (data = "dispose")) by done. simpl.
        apply bool_decide_ext. rewrite elem_of_cons. split; [by right |].
        by intros [Heq | Hin].
    + intros Hnot. apply not_elem_of_cons in Hnot as [Hne Hnot].
      rewrite (Hid Hnot). unfold receive.
      rewrite onmessage_other by done. apply with_base_base.
Qed.

(** ** Feedback comb filter: channels and runs *)

Section FeedbackCombMore.

Implicit Types (line : DelayLine) (this : FeedbackCombFilterProcessor).

Lemma get_after_push_other line channel v line1 other delay :
  DelayLine_.push line channel v = Some line1 → other ≠ channel →
  DelayLine_.get line1 other delay = DelayLine_.get line other delay.
Proof.
  intros Hpush Hne.
  destruct (push_other _ _ _ _ _ Hpush Hne) as [Hb Hw].
  unfold DelayLine_.push in Hpush.
  destruct (buffer line !! channel) as [buf|]; [| done].
  destruct (writeHead line !! channel) as [c|]; [| done].
  simpl in Hpush. injection Hpush as <-.
  unfold DelayLine_.get. simpl in *. by rewrite Hb, Hw.
Qed.

Lemma push_push_commute line c1 c2 v1 v2 line1 line2 :
  c1 ≠ c2 →
  DelayLine_.push line c1 v1 = Some line1 →
  DelayLine_.push line1 c2 v2 = Some line2 →
  ∃ line3,
    DelayLine_.push line c2 v2 = Some line3
    ∧ DelayLine_.push line3 c1 v1 = Some line2.
Proof.
  intros Hne H1 H2. unfold DelayLine_.push in *.
  destruct (buffer line !! c1) as [buf1|] eqn:Hb1; [| done].
  destruct (writeHead line !! c1) as [w1|] eqn:Hw1; [| done].
  simpl in H1. injection H1 as <-. simpl in H2.
  rewrite !list_lookup_insert_ne in H2 by done.
  destruct (buffer line !! c2) as [buf2|] eqn:Hb2; [| done].
  destruct (writeHead line !! c2) as [w2|] eqn:Hw2; [| done].
  simpl in H2. injection H2 as <-. simpl.
  eexists. split; [done |]. simpl.
  rewrite !list_lookup_insert_ne by done. rewrite Hb1, Hw1. simpl.
  f_equal. f_equal; by apply list_insert_insert_ne.
Qed.

End FeedbackCombMore.

(** X7. Calls of the comb filter's [generate] on two different channels do
    not affect one another: done in either order they return the same two
    samples and leave the filter in the same state. *)
Theorem FeedbackComb_channels_commute
    (this this1 this2 : FeedbackCombFilterProcessor)
    (x1 x2 y1 y2 : Q) (c1 c2 : nat)
    (p1 p2 : FeedbackCombFilterParameters) :
  c1 ≠ c2 →
  generate this x1 c1 p1 = Some (y1, this1) →
  generate this1 x2 c2 p2 = Some (y2, this2) →
  ∃ this3,
    generate this x2 c2 p2 = Some (y2, this3)
    ∧ generate this3 x1 c1 p1 = Some (y1, this2).
Proof.
  intros Hne H1 H2. simpl in *.
  unfold FeedbackCombFilterProcessor_.generate in *.
  destruct (DelayLine_.get (delayLine this) c1 _) as [d1|] eqn:Hg1; [| done].
  simpl in H1.
  destruct (DelayLine_.push (delayLine this) c1 _) as [l1|] eqn:Hp1; [| done].
  simpl in H1. injection H1 as <- <-. simpl in H2.
  destruct (DelayLine_.get l1 c2 _) as [d2|] eqn:Hg2; [| done].
  simpl in H2.
  destruct (DelayLine_.push l1 c2 _) as [l2|] eqn:Hp2; [| done].
  simpl in H2. injection H2 as <- <-.
  destruct (push_push_commute _ _ _ _ _ _ _ Hne Hp1 Hp2) as (l3 & Hp3 & Hp4).
  rewrite (get_after_push_other _ _ _ _ c2 _ Hp1) in Hg2 by done.
  rewrite Hg2. simpl. rewrite Hp3. simpl.
  eexists. split; [done |]. simpl.
  rewrite (get_after_push_other _ _ _ _ c1 _ Hp3) by done.
  rewrite Hg1. simpl. by rewrite Hp4.
Qed.

Lemma FeedbackComb_channels_commute_witness :
  let this := FeedbackCombFilterProcessor_.init
                {| disposed := false; blockSize := 256; sampleRate := 4 |}
                {| channelCount := None |} in
  let p := {| delayTime := 1 # 2; feedback := 1 # 2 |} in
  ∃ y1 y2 this1 this2 this3,
    generate this 1 0%nat p = Some (y1, this1)
    ∧ generate this1 (1 # 3) 1%nat p = Some (y2, this2)
    ∧ generate this (1 # 3) 1%nat p = Some (y2, this3)
    ∧ generate this3 1 0%nat p = Some (y1, this2).
Proof.
  intros this p.
  eexists _, _, _, _.
  assert (0%nat ≠ 1%nat) as Hne by lia.
  destruct (FeedbackComb_channels_commute this _ _ 1 (1 # 3) _ _ 0 1 p p Hne
              eq_refl eq_refl) as (this3 & H3 & H4).
  exists this3. split_and!; [reflexivity | reflexivity | exact H3 | exact H4].
Defined.

(** ** Chorus1 *)

Section Chorus.

Implicit Types (this : Chorus1.t) (a b depth spread : Q).

Lemma Math_max_spec a b :
  (a <= b ∧ Math_max a b = b) ∨ (b < a ∧ Math_max a b = a).
Proof.
  unfold Math_max. destruct (Qle_bool a b) eqn:Hle.
  - left. split; [by apply Qle_bool_iff | done].
  - right. split; [| done]. apply Qnot_le_lt. intros H.
    apply Qle_bool_iff in H. congruence.
Qed.

(** The oscillator range that belongs to a delay time and a depth. *)
Lemma set_depth_lfo this depth :
  lfo_min (Chorus1._lfo (Chorus1.set_depth this depth))
  = Math_max (Chorus1._delayTime this - Chorus1._delayTime this * depth) 0
  ∧ lfo_max (Chorus1._lfo (Chorus1.set_depth this depth))
    = Chorus1._delayTime this + Chorus1._delayTime this * depth.
Proof. done. Qed.

Lemma assign_in_keeping this assignment :
  chorus_in_keeping this →
  chorus_in_keeping (Chorus1.assign this assignment)
  ∧ Chorus1._channel (Chorus1.assign this assignment) = Chorus1._channel this
  ∧ lfo_frequency (Chorus1._lfo (Chorus1.assign this assignment))
    = lfo_frequency (Chorus1._lfo this).
Proof. intros [Hmin Hmax]. by destruct assignment. Qed.

End Chorus.

(** X9. Setting the depth of a chorus whose delay time is not negative to a
    value that is not negative keeps the delay time inside the range of the
    oscillator: [0 <= min <= delayTime <= max].  At depth 0 the range is the
    single point [delayTime]; at depth 1 it runs from 0 to twice the delay
    time.  The depth reads back as set. *)
Theorem Chorus1_depth_brackets_delayTime (this : Chorus1.t) (depth : Q) :
  0 <= Chorus1._delayTime this →
  0 <= depth →
  let dt := Chorus1._delayTime this in
  let this1 := Chorus1.set_depth this depth in
  Chorus1.get_depth this1 = depth
  ∧ 0 <= lfo_min (Chorus1._lfo this1)
  ∧ lfo_min (Chorus1._lfo this1) <= dt
  ∧ dt <= lfo_max (Chorus1._lfo this1)
  ∧ (depth == 0 →
     lfo_min (Chorus1._lfo this1) == dt ∧ lfo_max (Chorus1._lfo this1) == dt)
  ∧ (depth == 1 →
     lfo_min (Chorus1._lfo this1) == 0
     ∧ lfo_max (Chorus1._lfo this1) == 2 * dt).
Proof.
  intros Hdt Hd0 dt this1.
  destruct (set_depth_lfo this depth) as [Hmin Hmax].
  fold this1 dt in Hmin, Hmax. rewrite Hmin, Hmax.
  change (0 <= dt) in Hdt. clearbody dt.
  assert (0 <= dt * depth) as Hprod by (by apply Qmult_le_0_compat).
  destruct (Math_max_spec (dt - dt * depth) 0) as [[Hle ->] | [Hlt ->]].
  - split_and!; [done | lra | lra | lra | |].
    + intros Hzero. rewrite Hzero in *. split; lra.
    + intros Hone. rewrite Hone. split; [done | ring].
  - split_and!; [done | lra | lra | lra | |].
    + intros Hzero. rewrite Hzero. split; ring.
    + intros Hone. rewrite Hone in Hlt. lra.
Qed.

Lemma Chorus1_depth_brackets_delayTime_witness :
  let this := Chorus1.new Chorus1.getDefaults in
  let dt := Chorus1._delayTime this in
  let this1 := Chorus1.set_depth this (1 # 2) in
  Chorus1.get_depth this1 = 1 # 2
  ∧ 0 <= lfo_min (Chorus1._lfo this1)
  ∧ lfo_min (Chorus1._lfo this1) <= dt
  ∧ dt <= lfo_max (Chorus1._lfo this1)
  ∧ ((1 # 2) == 0 →
     lfo_min (Chorus1._lfo this1) == dt ∧ lfo_max (Chorus1._lfo this1) == dt)
  ∧ ((1 # 2) == 1 →
     lfo_min (Chorus1._lfo this1) == 0
     ∧ lfo_max (Chorus1._lfo this1) == 2 * dt).
Proof.
  apply (Chorus1_depth_brackets_delayTime
           (Chorus1.new Chorus1.getDefaults) (1 # 2)).
  - by vm_compute.
  - by vm_compute.
Defined.

(** X10. Whatever the delay time and the depth, the lower end of the
    oscillator range is never negative after the depth has been set; with a
    delay time that is not negative and a depth of 1 or more it is clamped
    to 0, while the upper end is at least twice the delay time. *)
Theorem Chorus1_depth_clamps_at_zero (this : Chorus1.t) (depth : Q) :
  let dt := Chorus1._delayTime this in
  let this1 := Chorus1.set_depth this depth in
  0 <= lfo_min (Chorus1._lfo this1)
  ∧ (0 <= dt → 1 <= depth →
     lfo_min (Chorus1._lfo this1) == 0
     ∧ 2 * dt <= lfo_max (Chorus1._lfo this1)).
Proof.
  intros dt this1.
  destruct (set_depth_lfo this depth) as [Hmin Hmax].
  fold this1 dt in Hmin, Hmax. rewrite Hmin, Hmax. clearbody dt.
  destruct (Math_max_spec (dt - dt * depth) 0) as [[Hle ->] | [Hlt ->]].
  - split; [lra |]. intros Hdt Hd.
    assert (0 <= dt * (depth - 1)) by (apply Qmult_le_0_compat; lra).
    split; [done | lra].
  - split; [lra |]. intros Hdt Hd.
    assert (0 <= dt * (depth - 1)) by (apply Qmult_le_0_compat; lra).
    split; lra.
Qed.

(** X11. After the constructor and after any sequence of assignments to
    [depth], [delayTime], [type] and [spread], the oscillator range is the one
    that belongs to the current delay time and depth, and the channel and the
    oscillator frequency are still those of the options. *)
Theorem Chorus1_range_in_keeping
    (options : Chorus1Options) (assignments : list Chorus1.Assignment) :
  let this := foldl Chorus1.assign (Chorus1.new options) assignments in
  lfo_min (Chorus1._lfo this)
  = Math_max (Chorus1._delayTime this
              - Chorus1._delayTime this * Chorus1._depth this) 0
  ∧ lfo_max (Chorus1._lfo this)
    = Chorus1._delayTime this + Chorus1._delayTime this * Chorus1._depth this
  ∧ Chorus1._channel this = chorus_channel options
  ∧ lfo_frequency (Chorus1._lfo this) = chorus_frequency options.
Proof.
  intros this. subst this.
  assert (chorus_in_keeping (Chorus1.new options)
          ∧ Chorus1._channel (Chorus1.new options) = chorus_channel options
          ∧ lfo_frequency (Chorus1._lfo (Chorus1.new options))
            = chorus_frequency options) as Hstart by done.
  revert Hstart. generalize (Chorus1.new options) as this.
  induction assignments as [| a assignments IH]; intros this (Hk & Hc & Hf).
  - destruct Hk. done.
  - simpl. apply IH.
    destruct (assign_in_keeping this a Hk) as (Hk1 & Hc1 & Hf1).
    split_and!; [done | congruence | congruence].
Qed.

(** X15. A constructed chorus has the depth, the oscillator type and the
    oscillator frequency of its options, and its delay time is the one of
    the options divided by 1000.  The phase handed to the oscillator,
    [180 * channel], is replaced by the one the spread gives,
    [90 - spread / 2] on channel 0 and [spread / 2 + 90] on any other; the
    two agree when the spread is 180 and the channel is 0 or 1. *)
Theorem Chorus1_new_reads_back (options : Chorus1Options) :
  let this := Chorus1.new options in
  Chorus1.get_depth this = chorus_depth options
  ∧ Chorus1.get_type this = chorus_type options
  ∧ lfo_frequency (Chorus1._lfo this) = chorus_frequency options
  ∧ Chorus1._delayTime this = chorus_delayTime options / 1000
  ∧ lfo_phase (Chorus1._lfo this)
    = (if Qeq_bool (chorus_channel options) 0
       then 90 - chorus_spread options / 2
       else chorus_spread options / 2 + 90)
  ∧ (chorus_spread options == 180 →
     chorus_channel options == 0 ∨ chorus_channel options == 1 →
     lfo_phase (Chorus1._lfo this) == 180 * chorus_channel options).
Proof.
  intros this. split_and!; try done.
  intros Hs Hc. unfold this, Chorus1.new, Chorus1.set_spread.
  cbn [Chorus1._lfo lfo_phase Chorus1._channel Chorus1.set_type
       Chorus1.set_depth].
  destruct (Qeq_bool (chorus_channel options) 0) eqn:Heq.
  - apply Qeq_bool_iff in Heq. rewrite Heq, Hs. reflexivity.
  - destruct Hc as [Hc | Hc].
    + apply Qeq_bool_iff in Hc. congruence.
    + rewrite Hc, Hs. reflexivity.
Qed.

(** ** Freeverb: routing and dampening *)

Lemma get_dampening_of_combs (combs : list LowpassCombFilter) (d : Q) :
  dampening <$>
    ((λ c, {| comb_id := comb_id c;
              comb_delayTime := comb_delayTime c;
              dampening := d |}) <$> combs) !! 0%nat
  = (λ _, d) <$> (dampening <$> combs !! 0%nat).
Proof. by destruct combs. Qed.

(** X16. In [Freeverb] and in [Freeverb1] alike the one [wetGain] signal is
    connected to the input gain of each of the eight comb filters, and the
    constructors make no other connection from a signal than those of
    [wetGain] and [roomSize]: two per comb filter. *)
Theorem Freeverb_wetGain_drives_every_comb (options : FreeverbOptions) :
  let is_connect := λ call,
    match call with connect (SignalOf _) _ => true | _ => false end in
  (let this := Freeverb.new options in
   Forall (λ c, connect (SignalOf (signal_name (Freeverb.wetGain this)))
                  (CombInputGain (comb_id c)) ∈ Freeverb.wiring this)
          (Freeverb._combFilters this)
   ∧ length (filter (λ call, is_connect call = true) (Freeverb.wiring this))
     = (2 * length (Freeverb._combFilters this))%nat)
  ∧ (let this := Freeverb1.new options in
     Forall (λ c, connect (SignalOf (signal_name (Freeverb1.wetGain this)))
                    (CombInputGain (comb_id c)) ∈ Freeverb1.wiring this)
            (Freeverb1._combFilters this)
     ∧ length (filter (λ call, is_connect call = true) (Freeverb1.wiring this))
       = (2 * length (Freeverb1._combFilters this))%nat).
Proof.
  intros is_connect. split; cbv zeta; split.
  - repeat constructor; apply list_elem_of_In; simpl; tauto.
  - reflexivity.
  - repeat constructor; apply list_elem_of_In; simpl; tauto.
  - reflexivity.
Qed.


(** X18. [Freeverb1] is a mono send: it makes one set of four allpass
    filters, and each of the eight comb filters is chained from the effect
    send through that same set to the effect return and registered, with the
    set, among the internal channels; the constructor performs four wiring
    calls per comb filter. *)
Theorem Freeverb1_mono_send_routing (options : FreeverbOptions) :
  let this := Freeverb1.new options in
  let allpass := Biquad ∘ biquad_id <$> Freeverb1._allpassFilters this in
  frequency <$> Freeverb1._allpassFilters this = allpassFilterFrequencies
  ∧ Forall (λ node, type node = "allpass") (Freeverb1._allpassFilters this)
  ∧ NoDup allpass
  ∧ comb_delayTime <$> Freeverb1._combFilters this = combFilterTunings
  ∧ Forall (λ c, dampening c = opt_dampening options)
      (Freeverb1._combFilters this)
  ∧ Forall (λ c,
              chain EffectSend
                (CombFilter (comb_id c) :: allpass ++ [EffectReturn])
                ∈ Freeverb1.wiring this
              ∧ internalChannels_push (CombFilter (comb_id c) :: allpass)
                ∈ Freeverb1.wiring this)
      (Freeverb1._combFilters this)
  ∧ length (Freeverb1.wiring this)
    = (4 * length (Freeverb1._combFilters this))%nat.
Proof.
  cbv zeta. split_and!.
  - reflexivity.
  - repeat constructor.
  - apply (bool_decide_unpack _). by vm_compute.
  - reflexivity.
  - repeat constructor.
  - repeat constructor; apply list_elem_of_In; simpl; tauto.
  - reflexivity.
Qed.

(** X19. In both reverbs, [dampening] reads the first comb filter: on a
    constructed instance it is the dampening of the options; after an
    assignment of [d] it is [d] whenever there was anything to read; and the
    assignment changes neither the delay times of the comb filters nor the
    signals, the allpass filters or the wiring. *)
Theorem Freeverb_dampening_round_trip (options : FreeverbOptions) (d : Q) :
  Freeverb.get_dampening (Freeverb.new options) = Some (opt_dampening options)
  ∧ Freeverb1.get_dampening (Freeverb1.new options)
    = Some (opt_dampening options)
  ∧ (∀ this : Freeverb.t,
       let this1 := Freeverb.set_dampening this d in
       Freeverb.get_dampening this1 = (λ _, d) <$> Freeverb.get_dampening this
       ∧ comb_delayTime <$> Freeverb._combFilters this1
         = comb_delayTime <$> Freeverb._combFilters this
       ∧ Freeverb.roomSize this1 = Freeverb.roomSize this
       ∧ Freeverb.wetGain this1 = Freeverb.wetGain this
       ∧ Freeverb._allpassFiltersL this1 = Freeverb._allpassFiltersL this
       ∧ Freeverb._allpassFiltersR this1 = Freeverb._allpassFiltersR this
       ∧ Freeverb.wiring this1 = Freeverb.wiring this)
  ∧ (∀ this : Freeverb1.t,
       let this1 := Freeverb1.set_dampening this d in
       Freeverb1.get_dampening this1
       = (λ _, d) <$> Freeverb1.get_dampening this
       ∧ comb_delayTime <$> Freeverb1._combFilters this1
         = comb_delayTime <$> Freeverb1._combFilters this
       ∧ Freeverb1.roomSize this1 = Freeverb1.roomSize this
       ∧ Freeverb1.wetGain this1 = Freeverb1.wetGain this
       ∧ Freeverb1._allpassFilters this1 = Freeverb1._allpassFilters this
       ∧ Freeverb1.wiring this1 = Freeverb1.wiring this).
Proof.
  split_and!; [reflexivity | reflexivity | |].
  - intros this. cbv zeta. split_and!; try reflexivity.
    + apply get_dampening_of_combs.
    + simpl. by rewrite <- list_fmap_compose.
  - intros this. cbv zeta. split_and!; try reflexivity.
    + apply get_dampening_of_combs.
    + simpl. by rewrite <- list_fmap_compose.
Qed.

(** ** Feedback comb filter: silence *)

Lemma comb_run_silent fb calls : ∀ this : FeedbackCombFilterProcessor,
  DelayLine_wf (delayLine this) →
  DelayLine_within 0 (delayLine this) →
  Forall (λ c, call_input c == 0
               ∧ (call_channel c < length (buffer (delayLine this)))%nat)
         calls →
  ∃ outputs this1,
    comb_run this fb calls = Some (outputs, this1)
    ∧ Forall (λ y, y == 0) outputs
    ∧ DelayLine_within 0 (delayLine this1).
Proof.
  induction calls as [| c calls IH]; intros this Hwf Hzero Hcalls.
  - exists [], this. by split_and!.
  - apply Forall_cons in Hcalls as [[Hin Hch] Hrest].
    destruct (comb_generate_spec this (call_input c) (call_channel c)
                {| delayTime := call_delayTime c; feedback := fb |} Hwf Hch)
      as (y & line & Hget & Hpush & Hgen).
    pose proof (get_within _ _ _ _ _ Hwf Hzero Hget) as Hy.
    apply Qabs_Qle_condition in Hy.
    assert (y == 0) as Hy0 by (destruct Hy; lra).
    destruct (push_wf _ _ _ _ Hwf Hpush) as (Hwf1 & _ & Hlen).
    assert (DelayLine_within 0 line) as Hzero1.
    { eapply push_within; [exact Hzero | | exact Hpush].
      cbn [feedback].
      assert (call_input c + y * fb == 0) as -> by (rewrite Hin, Hy0; ring).
      by vm_compute. }
    destruct (IH {| comb_super := comb_super this; delayLine := line |})
      as (ys & this2 & Hrun & Hys & Hz2); [done | done | |].
    { simpl. by rewrite Hlen. }
    exists (y :: ys), this2. simpl. rewrite Hgen. simpl. rewrite Hrun. simpl.
    split_and!; [done | by constructor | done].
Qed.

(** X20. Silence in, silence out, whatever the feedback: a constructed comb
    filter that is only ever given zero samples, on any of its channels and
    with any delay times, puts out zero samples and stores nothing but
    zeros, even with a feedback of 1 or more. *)
Theorem FeedbackComb_silence_stays_silent
    (options : ProcessorOptions) (fb : Q) (calls : list CombCall) :
  Forall (λ c, call_input c == 0
               ∧ (call_channel c < js_or (channelCount options) 2)%nat)
         calls →
  ∃ outputs this,
    comb_run (FeedbackCombFilterProcessor_.new options) fb calls
    = Some (outputs, this)
    ∧ Forall (λ y, y == 0) outputs
    ∧ Forall (Forall (λ v, v == 0)) (buffer (delayLine this)).
Proof.
  intros Hcalls.
  destruct (comb_run_silent fb calls (FeedbackCombFilterProcessor_.new options))
    as (outputs & this & Hrun & Hys & Hz).
  - apply comb_new_wf.
  - apply DelayLine_new_within. by vm_compute.
  - by rewrite comb_new_channels.
  - exists outputs, this. split_and!; [done | done |].
    unfold DelayLine_within in Hz.
    eapply Forall_impl; [exact Hz |]. intros buf Hbuf.
    eapply Forall_impl; [exact Hbuf |]. intros v Hv. simpl in Hv.
    apply Qabs_Qle_condition in Hv. destruct Hv. lra.
Qed.

Lemma FeedbackComb_silence_stays_silent_witness :
  ∃ outputs this,
    comb_run (FeedbackCombFilterProcessor_.new {| channelCount := None |}) 3
      [ {| call_input := 0; call_channel := 1; call_delayTime := 1 # 2 |};
        {| call_input := 0 # 5; call_channel := 0; call_delayTime := 2 |} ]
    = Some (outputs, this)
    ∧ Forall (λ y, y == 0) outputs
    ∧ Forall (Forall (λ v, v == 0)) (buffer (delayLine this)).
Proof.
  apply (FeedbackComb_silence_stays_silent {| channelCount := None |} 3).
  repeat constructor; simpl; lia.
Defined.
